(** * kge/dataset.py: grouped indexes, compact index view, relation types

    A shallow embedding of the [Dataset] class of [src/kge/dataset.py] and a
    verification of its index builder ([group_by_sp_po]), its cache
    ([index_1toN]), the compact view ([prepare_index]), the relation type
    classifier ([_get_relation_types]), the constructor, and the loaders
    ([_load_map], [_load_triples], [load]).

    Modelling conventions.
    - An [(n,3)] int32 tensor of triples is a [list triple], a triple being
      three integers in [Z] (the code does no arithmetic on identifiers
      except the float sum in [_get_relation_types]).
    - A Python [dict]/[OrderedDict] whose iteration order is observed (the
      grouped index) is an association list in insertion order with
      pairwise distinct keys; a [dict] that is only looked up (the cache
      [self.indexes], the relation type table) is a [gmap].
    - Python exceptions are values of [exn]; a fallible pure computation
      returns [exn + A]; a method of [Dataset] is a state transformer
      [Dataset -> (exn + A) * Dataset].
    - The float32 tensor [relation_stats] only ever holds floats whose
      value is an integer (zeros, rounded sums of integers, and the 0/1
      results of comparisons); its entries are those integers, in [Z].
      Float32 arithmetic is not exact: a sum is rounded to 24 significant
      bits ([round32], [fadd]), and so is a quotient before it is compared
      with 1.5 ([gt_1_5]). The quotient of two entries is a [quotient],
      which keeps NaN and the infinities.
    - What the loaders call outside this file ([open] and [csv.reader],
      [int], [torch.IntTensor], [torch.empty], [config.get], [kge_base_dir],
      [os.path.join]) is a record [World] that they take as an argument; a
      file is read as the list of its rows. *)

From Stdlib Require Import ZArith.
From stdpp Require Import gmap strings list sorting pretty.

Local Open Scope Z_scope.

(** ** Exceptions and the two monads *)

Inductive exn : Type :=
  | ValueError      (* raise ValueError() *)
  | IndexError      (* tensor index out of range *)
  | RuntimeError    (* raised by torch, e.g. torch.cat of no tensor *)
  | AttributeError. (* method call on None *)

Global Instance exn_eq_dec : EqDecision exn.
Proof. solve_decision. Defined.

Definition result (A : Type) : Type := (exn + A)%type.

Definition rbind {A B} (m : result A) (f : A → result B) : result B :=
  match m with
  | inl e => inl e
  | inr a => f a
  end.

Notation "'try!' x := m 'in' k" := (rbind m (λ x, k))
  (at level 10, x name, m at level 200, k at level 200, only parsing).

(** A Python [for] loop whose body may raise: the accumulator is threaded
    through the items in order, and the first exception ends the loop. *)
Fixpoint for_each {A S} (body : S → A → result S) (st : S) (items : list A)
  : result S :=
  match items with
  | [] => inr st
  | x :: items => try! st' := body st x in for_each body st' items
  end.

(** ** Tensors of triples *)

Definition triple : Type := (Z * Z * Z)%type.
Definition key : Type := (Z * Z)%type.

(** [t[c]] for a row [t] and a column [c] among 0, 1, 2. *)
Definition column (c : nat) (t : triple) : Z :=
  match c with
  | O => t.1.1
  | S O => t.1.2
  | _ => t.2
  end.

(** [triples[:, [c1, c2]].tolist()] followed by [tuple] on each row. *)
Definition tensor_cols (c : nat * nat) (triples : list triple) : list key :=
  (λ t, (column c.1 t, column c.2 t)) <$> triples.

(** [triples[:, c].tolist()]. *)
Definition tensor_col (c : nat) (triples : list triple) : list Z :=
  column c <$> triples.

(** ** The grouped index *)

(** A grouped index is the [OrderedDict] returned by [group_by_sp_po]: keys
    in insertion order, each with its tensor of completions. *)
Abbreviation GroupedIndex := (list (key * list Z)).

(** [index.get(k)] / [index[k]] on an association list. *)
Fixpoint dict_get {V} (k : key) (d : list (key * V)) : option V :=
  match d with
  | [] => None
  | (k', v) :: d => if decide (k' = k) then Some v else dict_get k d
  end.

(** [result[k].append(v)] on a [defaultdict(list)]: a missing key is
    inserted at the end with the one-element list, a present key keeps its
    position. *)
Fixpoint dict_append (k : key) (v : Z) (d : list (key * list Z))
  : list (key * list Z) :=
  match d with
  | [] => [(k, [v])]
  | (k', vs) :: d =>
      if decide (k' = k) then (k', vs ++ [v]) :: d
      else (k', vs) :: dict_append k v d
  end.

(** [sorted(o_s)] on a list of integers. *)
Definition sorted (l : list Z) : list Z := merge_sort Z.le l.

(** ** Torch operations used by the class *)

(** [torch.cat(tensors)] on one-dimensional tensors: the concatenation;
    torch raises a [RuntimeError] when it is given no tensor at all. *)
Definition torch_cat (tensors : list (list Z)) : result (list Z) :=
  match tensors with
  | [] => inl RuntimeError
  | _ => inr (concat tensors)
  end.

(** [torch.cumsum(t, 0)]: the running sums, one per element. The lengths
    summed by [prepare_index] are machine integers of 32 bits or more; they
    are kept in [Z], which agrees with the code as long as the total number
    of completions stays below [2^31]. *)
Fixpoint cumsum_from (acc : Z) (t : list Z) : list Z :=
  match t with
  | [] => []
  | x :: t => (acc + x) :: cumsum_from (acc + x) t
  end.

Definition torch_cumsum (t : list Z) : list Z := cumsum_from 0 t.

(** [len(t)] as a Python integer. *)
Definition len {A} (l : list A) : Z := Z.of_nat (length l).

(** A Python or torch index [i] into a dimension of size [n]: negative
    indices count from the end, anything else out of range raises. *)
Definition norm_index (n : nat) (i : Z) : result nat :=
  if bool_decide (0 ≤ i < Z.of_nat n) then inr (Z.to_nat i)
  else if bool_decide (- Z.of_nat n ≤ i < 0) then inr (Z.to_nat (i + Z.of_nat n))
  else inl IndexError.

(** A two-dimensional float tensor, row by row. *)
Abbreviation tensor2 := (list (list Z)).

(** [torch.zeros((n, m))]. *)
Definition torch_zeros (n m : nat) : tensor2 := replicate n (replicate m 0).

(** [t[i, j]] (read). The column [j] is a literal of the code, in range. *)
Definition tensor_get (t : tensor2) (i : Z) (j : nat) : result Z :=
  try! r := norm_index (length t) i in
  inr ((t !!! r) !!! j).

(** [t[i, j] = v], for a column [j] in range as well. *)
Definition tensor_set (t : tensor2) (i : Z) (j : nat) (v : Z) : result tensor2 :=
  try! r := norm_index (length t) i in
  inr (<[r := <[j := v]> (t !!! r)]> t).

(** The float32 nearest to the integer [z], ties to the even significand:
    what a float32 operation stores when its exact result is [z]. The
    integers up to [2^24] in magnitude are float32 values; above, the 24
    leading bits are kept, so that [2^24 + 1] becomes [2^24]. (The
    identifiers are int32 and no tensor is long enough for a sum of them to
    reach the float32 overflow threshold [2^128].) *)
Definition round32 (z : Z) : Z :=
  if bool_decide (Z.abs z ≤ 2 ^ 24) then z
  else
    let e := Z.log2 (Z.abs z) - 23 in
    let m := Z.shiftr (Z.abs z) e in
    let r := Z.abs z - Z.shiftl m e in
    let half := 2 ^ (e - 1) in
    let up := bool_decide (half < r) || (bool_decide (r = half) && Z.odd m) in
    Z.sgn z * Z.shiftl (if up then m + 1 else m) e.

(** [a + b] on float32 values holding the integers [a] and [b]. *)
Definition fadd (a b : Z) : Z := round32 (a + b).

(** The value of a float division, as far as a comparison sees it. *)
Inductive quotient : Type :=
  | qNaN
  | qPosInf
  | qNegInf
  | qFrac (a b : Z). (* the float32 nearest to a / b, with b <> 0 *)

(** [a / b] on float32 values holding the integers [a] and [b]. *)
Definition fdiv (a b : Z) : quotient :=
  if decide (b = 0) then
    if decide (a = 0) then qNaN
    else if decide (0 < a) then qPosInf else qNegInf
  else qFrac a b.

(** [q > 1.5]; every comparison with NaN is false. The division has
    rounded [a / b] to the nearest float32, ties to even. [1.5] is a
    float32 with an even significand and the next float32 is
    [1.5 + 2^-23], so the rounded quotient exceeds [1.5] exactly when
    [a / b] exceeds the midpoint [1.5 + 2^-24], which is
    [25165825 / 2^24]. *)
Definition gt_1_5 (q : quotient) : bool :=
  match q with
  | qNaN => false
  | qPosInf => true
  | qNegInf => false
  | qFrac a b =>
      if decide (0 < b) then bool_decide (25165825 * b < 2 ^ 24 * a)
      else bool_decide (2 ^ 24 * a < 25165825 * b)
  end.

(** A boolean stored into a float tensor. *)
Definition float_of_bool (b : bool) : Z := if b then 1 else 0.

(** [t[:, dst] = (t[:, num] / t[:, den]) > 1.5], row by row. *)
Definition set_column_gt_1_5 (dst num den : nat) (t : tensor2) : tensor2 :=
  (λ row, <[dst := float_of_bool (gt_1_5 (fdiv (row !!! num) (row !!! den)))]> row)
    <$> t.

(** [prefix[p]] for a key and [p] among 0, 1. *)
Definition key_at (prefix : key) (p : nat) : Z :=
  match p with
  | O => prefix.1
  | _ => prefix.2
  end.

(** [labels.float().sum()]: every int32 identifier is converted to the
    nearest float32, then the floats are summed. torch fixes neither the
    order of the additions nor the width of the accumulator; the model adds
    the converted values exactly and rounds once. Whatever the order, the
    code computes this value when the tensor has a single element, and when
    the absolute values of the identifiers add up to at most [2^24] (no
    partial sum is rounded then): see [exact_float_sum] below, which the
    statements about the value of a total carry as a condition. *)
Definition float_sum (labels : list Z) : Z :=
  round32 (foldr Z.add 0 (round32 <$> labels)).

(** [enumerate(l)]. *)
Definition enumerate {A} (l : list A) : list (nat * A) :=
  zip (seq 0 (length l)) l.

(** ** What the loaders take from outside *)

(** An exception as a caller of the loaders sees it: one raised by the code
    of this file, or one that comes out of an outside call ([open],
    [csv.reader], [config.get]). *)
Inductive load_exn : Type :=
  | Raised (e : exn)
  | External.

Definition lbind {A B} (m : load_exn + A) (f : A → load_exn + B) : load_exn + B :=
  match m with
  | inl e => inl e
  | inr a => f a
  end.

Notation "'load!' x := m 'in' k" := (lbind m (λ x, k))
  (at level 10, x name, m at level 200, k at level 200, only parsing).

(** An exception of this file's code, seen by the caller. *)
Definition raised {A} (r : result A) : load_exn + A :=
  match r with
  | inl e => inl (Raised e)
  | inr a => inr a
  end.

(** The result of an outside call; [None] when the call raises. *)
Definition outside {A} (o : option A) : load_exn + A :=
  match o with
  | None => inl External
  | Some a => inr a
  end.

(** The outside world of the loaders.
    - [read_rows filename]: the rows that [csv.reader(file, delimiter="\t")]
      yields for the file opened by [open(filename, "r")], each a list of
      fields; [None] when the file cannot be opened or read.
    - [py_int s]: [int(s)] on a string; [None] when [int] raises
      [ValueError].
    - [int_tensor s p o]: the row of [torch.IntTensor([s, p, o])].
    - [garbage i]: row [i] of the uninitialised [torch.empty(n, 3)].
    - [config_get key]: [config.get(key)]; [None] when it raises.
    - [kge_base_dir], [path_join]: [kge_base_dir()] and [os.path.join]. *)
Record World : Type := {
  read_rows : string → option (list (list string));
  py_int : string → option Z;
  int_tensor : Z → Z → Z → result triple;
  garbage : nat → triple;
  config_get : string → option string;
  kge_base_dir : string;
  path_join : string → string → string
}.

(** [d[k] = v] on a dictionary in insertion order: a present key keeps its
    position and takes the new value, a missing key goes to the end. *)
Fixpoint odict_set {K V} `{EqDecision K} (k : K) (v : V) (d : list (K * V))
  : list (K * V) :=
  match d with
  | [] => [(k, v)]
  | (k', v') :: d =>
      if decide (k' = k) then (k', v) :: d else (k', v') :: odict_set k v d
  end.

(** [array[index] = x] on a Python list: negative indices count from the
    end, anything else out of range raises [IndexError]. *)
Definition list_set {A} (array : list A) (index : Z) (x : A) : result (list A) :=
  try! i := norm_index (length array) index in
  inr (<[i := x]> array).

(** [row[i]] for a literal [i >= 0]. *)
Definition row_at (row : list string) (i : nat) : result string :=
  match row !! i with
  | Some field => inr field
  | None => inl IndexError
  end.

(** [int(field)]. *)
Definition int_of (w : World) (field : string) : result Z :=
  match py_int w field with
  | Some z => inr z
  | None => inl ValueError
  end.

(** [torch.empty(n, 3, dtype=torch.int32)]. *)
Definition torch_empty (w : World) (n : nat) : list triple :=
  garbage w <$> seq 0 n.

(** The elements of a list in the order of their first occurrence. *)
Fixpoint first_occurrences {A} `{EqDecision A} (l : list A) : list A :=
  match l with
  | [] => []
  | x :: l => x :: filter (λ y, y ≠ x) (first_occurrences l)
  end.

(** ** The class [Dataset] *)

Module Dataset.

(** The fields set by [__init__]. [config] is represented by what the
    class does with it: the lines it sends to [config.log]. *)
Record t : Type := mk {
  config_log : list string;
  num_entities : nat;
  entities : list (list string);
  num_relations : nat;
  relations : list (list string);
  train : list triple;
  train_meta : list (list string);
  valid : list triple;
  valid_meta : list (list string);
  test : list triple;
  test_meta : list (list string);
  indexes : gmap string GroupedIndex;
  relation_types : gmap nat string;
  relations_per_type : gmap string (gset nat)
}.

(** A method of the class: it may raise, and it may mutate [self]. *)
Definition method (A : Type) : Type := t → result A * t.

Definition mbind {A B} (m : method A) (f : A → method B) : method B :=
  λ self,
    match m self with
    | (inl e, self) => (inl e, self)
    | (inr a, self) => f a self
    end.

Notation "'run!' x := m 'in' k" := (mbind m (λ x, k))
  (at level 10, x name, m at level 200, k at level 200, only parsing).

(** A fallible pure computation inside a method. *)
Definition lift {A} (r : result A) : method A := λ self, (r, self).

Definition set_indexes (f : gmap string GroupedIndex → gmap string GroupedIndex)
    (self : t) : t :=
  mk (config_log self) (num_entities self) (entities self)
     (num_relations self) (relations self)
     (train self) (train_meta self) (valid self) (valid_meta self)
     (test self) (test_meta self)
     (f (indexes self)) (relation_types self) (relations_per_type self).

(** [self.config.log(msg, prefix="  ")]: the message joins the lines
    logged so far (what [config.log] does with the prefix is its own
    business). *)
Definition log (msg : string) (self : t) : t :=
  mk (config_log self ++ [msg]) (num_entities self) (entities self)
     (num_relations self) (relations self)
     (train self) (train_meta self) (valid self) (valid_meta self)
     (test self) (test_meta self)
     (indexes self) (relation_types self) (relations_per_type self).

(** [group_by_sp_po(sp_po_list, o_s_list)] (static method). The first
    loop fills the [defaultdict], the second replaces every value by its
    sorted tensor, which leaves the key order alone. *)
Definition group_by_sp_po (sp_po_list : list key) (o_s_list : list Z)
  : GroupedIndex :=
  let result :=
    foldl (λ result '(sp_po, o_s), dict_append sp_po o_s result)
          [] (zip sp_po_list o_s_list) in
  (λ '(sp_po, o_s), (sp_po, sorted o_s)) <$> result.

(** Python truth value of [self.indexes.get(name)]: [None] and the empty
    dictionary are both false. *)
Definition truthy (v : option GroupedIndex) : bool :=
  match v with
  | None => false
  | Some [] => false
  | Some (_ :: _) => true
  end.

(** [index_1toN(self, split, sp_po)]. It returns [self.indexes.get(name)],
    which is [None] or a dictionary. *)
Definition index_1toN (split sp_po : string) : method (option GroupedIndex) :=
  λ self,
    let triples : result (list triple) :=
      if decide (split = "train") then inr (train self)
      else if decide (split = "valid") then inr (valid self)
      else if decide (split = "test") then inr (test self)
      else inl ValueError in
    match triples with
    | inl e => (inl e, self)
    | inr triples =>
        let cols : result ((nat * nat) * nat) :=
          if decide (sp_po = "sp") then inr ((0, 1), 2)%nat
          else if decide (sp_po = "po") then inr ((1, 2), 0)%nat
          else inl ValueError in
        match cols with
        | inl e => (inl e, self)
        | inr (sp_po_cols, value_column) =>
            let name := split +:+ "_" +:+ sp_po in
            let self :=
              if negb (truthy (indexes self !! name)) then
                let index :=
                  group_by_sp_po (tensor_cols sp_po_cols triples)
                                 (tensor_col value_column triples) in
                let self := set_indexes (insert name index) self in
                log (pretty (length index) +:+ " distinct " +:+ sp_po
                       +:+ " pairs in " +:+ split) self
              else self in
            (inr (indexes self !! name), self)
        end
    end.

(** [prepare_index(index)] (static method). *)
Definition prepare_index (index : GroupedIndex)
  : result (list key * list Z * list Z) :=
  let sp_po := index.*1 in
  try! o_s := torch_cat index.*2 in
  let offsets := torch_cumsum (0 :: (len <$> index.*2)) in
  inr (sp_po, o_s, offsets).

(** The body of the inner loop of [_get_relation_types]:
    [relation_stats[prefix[p], 0+p*2] = labels.float().sum()] and
    [relation_stats[prefix[p], 1+p*2] = relation_stats[prefix[p], 1+p*2] + 1.] *)
Definition stats_body (p : nat) (relation_stats : tensor2)
    (item : key * list Z) : result tensor2 :=
  let '(prefix, labels) := item in
  try! relation_stats :=
    tensor_set relation_stats (key_at prefix p) (0 + p * 2) (float_sum labels) in
  try! count := tensor_get relation_stats (key_at prefix p) (1 + p * 2) in
  tensor_set relation_stats (key_at prefix p) (1 + p * 2) (fadd count 1).

(** The two nested loops over [(index, p)] and [index.items()]. *)
Definition fill_stats (relation_stats : tensor2)
    (indexes : list (option GroupedIndex * nat)) : result tensor2 :=
  for_each
    (λ relation_stats '(index, p),
       match index with
       | None => inl AttributeError
       | Some index => for_each (stats_body p) relation_stats index
       end)
    relation_stats indexes.

(** The two column assignments that threshold the averages. *)
Definition threshold_stats (relation_stats : tensor2) : tensor2 :=
  set_column_gt_1_5 5 2 3 (set_column_gt_1_5 4 0 1 relation_stats).

(** ['{}-{}'.format('1' if a == 0 else 'M', '1' if b == 0 else 'N')]. *)
Definition format_label (a b : Z) : string :=
  (if decide (a = 0) then "1" else "M") +:+ "-" +:+
  (if decide (b = 0) then "1" else "N").

(** The body of the loop [for i, relation in enumerate(self.relations)]:
    [result[i] = '{}-{}'.format(...)] on [relation_stats[i,4].item()] and
    [relation_stats[i,5].item()]. *)
Definition label_body (relation_stats : tensor2) (result : gmap nat string)
    (item : nat * list string) : exn + gmap nat string :=
  let '(i, relation) := item in
  try! a := tensor_get relation_stats (Z.of_nat i) 4 in
  try! b := tensor_get relation_stats (Z.of_nat i) 5 in
  inr (<[i := format_label a b]> result).

(** The loop itself, from [result = dict()]. *)
Definition label_relations (relation_stats : tensor2)
    (relations : list (list string)) : result (gmap nat string) :=
  for_each (label_body relation_stats) ∅ (enumerate relations).

(** The statistics table of [_get_relation_types] once both loops and the
    two thresholding assignments have run. *)
Definition relation_stats : method tensor2 :=
  λ self,
    let relation_stats := torch_zeros (num_relations self) 6 in
    (run! index_sp := index_1toN "train" "sp" in
     run! index_po := index_1toN "train" "po" in
     lift (try! relation_stats :=
             fill_stats relation_stats [(index_sp, 1%nat); (index_po, 0%nat)] in
           inr (threshold_stats relation_stats))) self.

(** [_get_relation_types(self)]. *)
Definition _get_relation_types : method (gmap nat string) :=
  λ self,
    (run! relation_stats := relation_stats in
     lift (label_relations relation_stats (relations self))) self.

(** The loop of [__init__] that fills [relations_per_type]:
    [relations_per_type.setdefault(v, set()).add(k)]. *)
Definition per_type (relation_types : gmap nat string) : gmap string (gset nat) :=
  map_fold (λ k v acc, <[v := {[k]} ∪ default ∅ (acc !! v)]> acc) ∅ relation_types.

(** [Dataset(config, num_entities, ..., test_meta)]. *)
Definition __init__ (config : list string)
    (num_entities : nat) (entities : list (list string))
    (num_relations : nat) (relations : list (list string))
    (train : list triple) (train_meta : list (list string))
    (valid : list triple) (valid_meta : list (list string))
    (test : list triple) (test_meta : list (list string)) : result t :=
  let self :=
    mk config num_entities entities num_relations relations
       train train_meta valid valid_meta test test_meta ∅ ∅ ∅ in
  match _get_relation_types self with
  | (inl e, _) => inl e
  | (inr types, self) =>
      inr (mk (config_log self) num_entities entities num_relations relations
              train train_meta valid valid_meta test test_meta
              (indexes self) types (per_type types))
  end.

(** The body of the reading loop of [_load_map]:
    [index = int(row[0])], [meta = row[1:]], [dictionary[index] = meta],
    [n = max(n, index + 1)]. *)
Definition load_map_row (w : World) (st : Z * list (Z * list string))
    (row : list string) : result (Z * list (Z * list string)) :=
  let '(n, dictionary) := st in
  try! field := row_at row 0 in
  try! index := int_of w field in
  let meta := drop 1 row in
  inr (Z.max n (index + 1), odict_set index meta dictionary).

(** The loop [for index, meta in dictionary.items(): array[index] = meta]. *)
Definition fill_array (array : list (list string))
    (dictionary : list (Z * list string)) : result (list (list string)) :=
  for_each (λ array '(index, meta), list_set array index meta) array dictionary.

(** [_load_map(filename)] (static method). *)
Definition _load_map (w : World) (filename : string)
  : load_exn + (Z * list (list string)) :=
  load! rows := outside (read_rows w filename) in
  raised
    (try! st := for_each (load_map_row w) (0, []) rows in
     let '(n, dictionary) := st in
     try! array := fill_array (replicate (Z.to_nat n) []) dictionary in
     inr (n, array)).

(** The body of the reading loop of [_load_triples]:
    [s = int(row[0])], [p = int(row[1])], [o = int(row[2])],
    [meta = row[3:]], [dictionary[n] = (torch.IntTensor([s, p, o]), meta)],
    [n += 1]. *)
Definition load_triples_row (w : World)
    (st : Z * list (Z * (triple * list string))) (row : list string)
  : result (Z * list (Z * (triple * list string))) :=
  let '(n, dictionary) := st in
  try! f0 := row_at row 0 in
  try! s := int_of w f0 in
  try! f1 := row_at row 1 in
  try! p := int_of w f1 in
  try! f2 := row_at row 2 in
  try! o := int_of w f2 in
  let meta := drop 3 row in
  try! tensor := int_tensor w s p o in
  inr (n + 1, odict_set n (tensor, meta) dictionary).

(** The loop [for index, value in dictionary.items()] of [_load_triples]:
    [triples[index, :] = value[0]] and [meta[index] = value[1]]. *)
Definition fill_triples (triples : list triple) (meta : list (list string))
    (dictionary : list (Z * (triple * list string)))
  : result (list triple * list (list string)) :=
  for_each
    (λ '(triples, meta) '(index, value),
       try! triples := list_set triples index value.1 in
       try! meta := list_set meta index value.2 in
       inr (triples, meta))
    (triples, meta) dictionary.

(** [_load_triples(filename)] (static method). *)
Definition _load_triples (w : World) (filename : string)
  : load_exn + (list triple * list (list string)) :=
  load! rows := outside (read_rows w filename) in
  raised
    (try! st := for_each (load_triples_row w) (0, []) rows in
     let '(n, dictionary) := st in
     fill_triples (torch_empty w (Z.to_nat n)) (replicate (Z.to_nat n) [])
                  dictionary).

(** The keys of [relations_per_type] in insertion order: the labels of
    [relation_types] in the order of their first occurrence, the keys of
    [relation_types] being the positions of [relations] in ascending
    order. *)
Definition type_order (self : t) : list string :=
  first_occurrences
    (omap (λ i, relation_types self !! i) (seq 0 (length (relations self)))).

(** The loop of [load] over [result.relations_per_type.items()]. *)
Definition log_types (result : t) : t :=
  foldl
    (λ result k,
       log (pretty (size (default ∅ (relations_per_type result !! k)))
              +:+ " relations of type " +:+ k) result)
    result (type_order result).

(** [Dataset.load(config)] (static method). [config] is the list of lines
    logged so far; the dataset returned shares the configuration object,
    so the lines logged after its construction are in its log as well. *)
Definition load (w : World) (config : list string) : load_exn + t :=
  load! name := outside (config_get w "dataset.name") in
  let config := config ++ ["Loading dataset " +:+ name +:+ "..."] in
  let base_dir := path_join w (kge_base_dir w) ("data/" +:+ name) in
  load! entity_map := outside (config_get w "dataset.entity_map") in
  load! entities := _load_map w (path_join w base_dir entity_map) in
  load! relation_map := outside (config_get w "dataset.relation_map") in
  load! relations := _load_map w (path_join w base_dir relation_map) in
  load! train_file := outside (config_get w "dataset.train") in
  load! train := _load_triples w (path_join w base_dir train_file) in
  load! valid_file := outside (config_get w "dataset.valid") in
  load! valid := _load_triples w (path_join w base_dir valid_file) in
  load! test_file := outside (config_get w "dataset.test") in
  load! test := _load_triples w (path_join w base_dir test_file) in
  load! result :=
    raised (__init__ config (Z.to_nat entities.1) entities.2
              (Z.to_nat relations.1) relations.2
              train.1 train.2 valid.1 valid.2 test.1 test.2) in
  let result := log (pretty entities.1 +:+ " entities") result in
  let result := log (pretty relations.1 +:+ " relations") result in
  let result := log_types result in
  let result := log (pretty (length train.1) +:+ " training triples") result in
  let result := log (pretty (length valid.1) +:+ " validation triples") result in
  let result := log (pretty (length test.1) +:+ " test triples") result in
  inr result.

End Dataset.

(** ** Vocabulary of the statements *)

(** The rows a builder call sees: key and value side by side. *)
Definition rows_of (c : nat * nat) (v : nat) (triples : list triple)
  : list (key * Z) :=
  zip (tensor_cols c triples) (tensor_col v triples).

(** The index that [index_1toN] builds for direction ["sp"], and for
    direction ["po"]. *)
Definition sp_index (triples : list triple) : GroupedIndex :=
  Dataset.group_by_sp_po (tensor_cols (0, 1)%nat triples) (tensor_col 2 triples).

Definition po_index (triples : list triple) : GroupedIndex :=
  Dataset.group_by_sp_po (tensor_cols (1, 2)%nat triples) (tensor_col 0 triples).

(** The values of the rows with key [k], in row order. *)
Definition completions (k : key) (rows : list (key * Z)) : list Z :=
  (filter (λ r, r.1 = k) rows).*2.

(** The dictionary after the first loop of [group_by_sp_po]. *)
Definition raw_groups (rows : list (key * Z)) : list (key * list Z) :=
  foldl (λ result '(sp_po, o_s), dict_append sp_po o_s result) [] rows.

(** The triple array of a split name, when the name is one of the three. *)
Definition split_triples (split : string) (self : Dataset.t)
  : option (list triple) :=
  if decide (split = "train") then Some (Dataset.train self)
  else if decide (split = "valid") then Some (Dataset.valid self)
  else if decide (split = "test") then Some (Dataset.test self)
  else None.

(** The build counter: every call of [group_by_sp_po] in [index_1toN] is
    followed by exactly one line sent to [config.log], and nothing else in
    the class logs, so the number of lines counts the builds (from the
    number of lines the configuration came with). *)
Definition builds (self : Dataset.t) : nat := length (Dataset.config_log self).

(** The columns of a direction name, when the name is one of the two. *)
Definition direction_cols (sp_po : string) : option ((nat * nat) * nat) :=
  if decide (sp_po = "sp") then Some ((0, 1), 2)%nat
  else if decide (sp_po = "po") then Some ((1, 2), 0)%nat
  else None.

(** The dataset after [index_1toN] has built and stored an index. *)
Definition after_build (split sp_po : string) (index : GroupedIndex)
    (self : Dataset.t) : Dataset.t :=
  Dataset.log (pretty (length index) +:+ " distinct " +:+ sp_po
                 +:+ " pairs in " +:+ split)
    (Dataset.set_indexes (insert (split +:+ "_" +:+ sp_po) index) self).

(** [values[a:b]] for [0 <= a <= b]. *)
Definition py_slice {A} (a b : Z) (values : list A) : list A :=
  take (Z.to_nat (b - a)) (drop (Z.to_nat a) values).

(** [d.get(k)] on a dictionary in insertion order. *)
Fixpoint odict_get {K V} `{EqDecision K} (k : K) (d : list (K * V)) : option V :=
  match d with
  | [] => None
  | (k', v) :: d => if decide (k' = k) then Some v else odict_get k d
  end.

(** A row of a map file read as the entry [(index, meta)]: its first field
    is an integer literal for [index], the other fields are [meta]. *)
Definition map_row (w : World) (row : list string) (e : Z * list string) : Prop :=
  ∃ field, row = field :: e.2 ∧ py_int w field = Some e.1.

(** The metadata that the last entry with index [i] carries, if any. *)
Definition last_meta (i : Z) (entries : list (Z * list string))
  : option (list string) :=
  snd <$> last (filter (λ e, e.1 = i) entries).

(** A row of a triple file read as the entry [(tensor, meta)]: its first
    three fields are integer literals, [tensor] is the int32 row made of
    them, the other fields are [meta]. *)
Definition triple_row (w : World) (row : list string)
    (e : triple * list string) : Prop :=
  ∃ f0 f1 f2 s p o,
    row = f0 :: f1 :: f2 :: e.2 ∧
    py_int w f0 = Some s ∧ py_int w f1 = Some p ∧ py_int w f2 = Some o ∧
    int_tensor w s p o = inr e.1.

(** The dictionary and the count that the reading loop of [_load_map]
    builds from rows that all read as entries. *)
Definition map_dictionary (d0 : list (Z * list string))
    (entries : list (Z * list string)) : list (Z * list string) :=
  foldl (λ d e, odict_set e.1 e.2 d) d0 entries.

Definition map_size (n0 : Z) (entries : list (Z * list string)) : Z :=
  foldl (λ n e, Z.max n (e.1 + 1)) n0 entries.

(** A small world to run the loaders in: a dataset named [toy] under
    [kge/data/toy], with three entity rows (index 0 twice, index 1 never),
    one relation, two training triples, no validation triple and one test
    triple. *)
Definition toy_int (s : string) : option Z :=
  if decide (s = "0") then Some 0
  else if decide (s = "1") then Some 1
  else if decide (s = "2") then Some 2
  else if decide (s = "-1") then Some (-1)
  else None.

Definition toy_config (k : string) : option string :=
  if decide (k = "dataset.name") then Some "toy"
  else if decide (k = "dataset.entity_map") then Some "entity_map.del"
  else if decide (k = "dataset.relation_map") then Some "relation_map.del"
  else if decide (k = "dataset.train") then Some "train.del"
  else if decide (k = "dataset.valid") then Some "valid.del"
  else if decide (k = "dataset.test") then Some "test.del"
  else None.

Definition toy_files (filename : string) : option (list (list string)) :=
  if decide (filename = "kge/data/toy/entity_map.del")
  then Some [["0"; "a"]; ["2"; "c"; "x"]; ["0"; "b"]]
  else if decide (filename = "kge/data/toy/relation_map.del")
  then Some [["0"; "r"]]
  else if decide (filename = "kge/data/toy/train.del")
  then Some [["0"; "0"; "2"; "m"]; ["2"; "0"; "0"]]
  else if decide (filename = "kge/data/toy/valid.del") then Some []
  else if decide (filename = "kge/data/toy/test.del") then Some [["0"; "0"; "0"]]
  else if decide (filename = "kge/data/toy/blank_line.del")
  then Some [["0"; "a"]; []; ["1"; "b"]]
  else if decide (filename = "kge/data/toy/negative.del")
  then Some [["-1"; "a"]]
  else if decide (filename = "kge/data/toy/short_row.del")
  then Some [["0"; "0"; "2"]; ["1"; "0"]]
  else None.

Definition toy_world : World := {|
  read_rows := toy_files;
  py_int := toy_int;
  int_tensor := λ s p o, inr (s, p, o);
  garbage := λ _, (7, 7, 7);
  config_get := toy_config;
  kge_base_dir := "kge";
  path_join := λ a b, a +:+ "/" +:+ b
|}.

(** The path that [load] computes for the file named under [key] in the
    configuration of the dataset [name]. *)
Definition dataset_file (w : World) (name key : string) : option string :=
  path_join w (path_join w (kge_base_dir w) ("data/" +:+ name))
    <$> config_get w key.

(** A map file that reads as [entries], all with an index [>= 0]; a triple
    file that reads as [entries]. *)
Definition map_file (w : World) (filename : string)
    (entries : list (Z * list string)) : Prop :=
  ∃ rows, read_rows w filename = Some rows ∧
          Forall2 (map_row w) rows entries ∧ ∀ e, e ∈ entries → 0 ≤ e.1.

Definition triple_file (w : World) (filename : string)
    (entries : list (triple * list string)) : Prop :=
  ∃ rows, read_rows w filename = Some rows ∧ Forall2 (triple_row w) rows entries.

(** The dataset [d] with the log [lines] in place of its own. *)
Definition with_log (lines : list string) (d : Dataset.t) : Dataset.t :=
  Dataset.mk lines (Dataset.num_entities d) (Dataset.entities d)
    (Dataset.num_relations d) (Dataset.relations d)
    (Dataset.train d) (Dataset.train_meta d)
    (Dataset.valid d) (Dataset.valid_meta d)
    (Dataset.test d) (Dataset.test_meta d)
    (Dataset.indexes d) (Dataset.relation_types d)
    (Dataset.relations_per_type d).

(** The grouped index read back from a compact view: key [i] with the
    slice of the values between offsets [i] and [i + 1]. *)
Definition index_of_view (keys : list key) (values offsets : list Z)
  : GroupedIndex :=
  zip keys
      ((λ i, py_slice (offsets !!! i) (offsets !!! S i) values)
         <$> seq 0 (length keys)).

(** [t[i, j]] for indices in range, and the assignment [t[r, j] = v]. *)
Definition entry (t : tensor2) (i j : nat) : Z := (t !!! i) !!! j.

Definition set_entry (t : tensor2) (r j : nat) (v : Z) : tensor2 :=
  <[r := <[j := v]> (t !!! r)]> t.

(** One iteration of the inner loop on row [r]. *)
Definition stats_update (p r : nat) (sum : Z) (t : tensor2) : tensor2 :=
  let t1 := set_entry t r (0 + p * 2) sum in
  set_entry t1 r (1 + p * 2) (fadd (entry t1 r (1 + p * 2)) 1).

(** All rows have the six columns of [relation_stats]. *)
Definition six_columns (t : tensor2) : Prop :=
  Forall (λ row, length row = 6%nat) t.

(** The items of an index that the inner loop for [p] sends to row [i] of
    a table with [n] rows. *)
Definition hits (n p i : nat) (item : key * list Z) : Prop :=
  norm_index n (key_at item.1 p) = inr i.

Global Instance hits_dec n p i item : Decision (hits n p i item).
Proof. unfold hits. apply _. Defined.

(** The identifier tensors whose float32 sum does not depend on how torch
    orders the additions: a single element, or absolute values that add up
    to at most [2^24], so that every partial sum is a float32. *)
Definition exact_float_sum (labels : list Z) : Prop :=
  (length labels ≤ 1)%nat ∨ foldr Z.add 0 (Z.abs <$> labels) ≤ 2 ^ 24.

Global Instance exact_float_sum_dec labels : Decision (exact_float_sum labels).
Proof. unfold exact_float_sum. apply _. Defined.

(** What the inner loop leaves in the total column of row [i]: the sum of
    the identifiers of the last group sent to that row, or the value the
    column started with. *)
Definition last_group_sum (n p i : nat) (index : GroupedIndex) (init : Z) : Z :=
  match last (filter (hits n p i) index) with
  | Some item => float_sum item.2
  | None => init
  end.

(** The object under construction when [__init__] calls
    [_get_relation_types]: all fields set, no index cached yet. *)
Definition fresh (config : list string)
    (num_entities : nat) (entities : list (list string))
    (num_relations : nat) (relations : list (list string))
    (train : list triple) (train_meta : list (list string))
    (valid : list triple) (valid_meta : list (list string))
    (test : list triple) (test_meta : list (list string)) : Dataset.t :=
  Dataset.mk config num_entities entities num_relations relations
    train train_meta valid valid_meta test test_meta ∅ ∅ ∅.

(** The dataset once both training indexes are built and cached. *)
Definition after_train_indexes (self : Dataset.t) : Dataset.t :=
  after_build "train" "po" (po_index (Dataset.train self))
    (after_build "train" "sp" (sp_index (Dataset.train self)) self).

(** The statistics table after the two loops, before thresholding. *)
Definition filled_stats (num_relations : nat) (train : list triple)
  : result tensor2 :=
  try! t := for_each (Dataset.stats_body 1) (torch_zeros num_relations 6)
                     (sp_index train) in
  for_each (Dataset.stats_body 0) t (po_index train).

(** The pure content of [_get_relation_types] on a fresh dataset. *)
Definition classify (num_relations : nat) (relations : list (list string))
    (train : list triple) : result (gmap nat string) :=
  try! t := filled_stats num_relations train in
  Dataset.label_relations (Dataset.threshold_stats t) relations.

(** The statistics as the specification words them: the total number of
    completions over the keys of an index whose predicate (at position
    [pos] of the key) is [p], and the number of those keys. *)
Definition spec_total (pos : nat) (index : GroupedIndex) (p : Z) : Z :=
  foldr Z.add 0 (len <$> (filter (λ kl, key_at kl.1 pos = p) index).*2).

Definition spec_groups (pos : nat) (index : GroupedIndex) (p : Z) : Z :=
  len (filter (λ kl, key_at kl.1 pos = p) index).

(** ** Small runs of the model *)

Example group_by_sp_po_ex :
  Dataset.group_by_sp_po [(0,0); (1,0); (0,0); (0,0)] [2; 2; 1; 2]
  = [((0,0), [1; 2; 2]); ((1,0), [2])].
Proof. reflexivity. Qed.

(** Float32 at the end of its exact range: [2^24 + 1] is not a float32 and
    a tie goes to the even significand; a count of [2^24] does not grow; an
    identifier above [2^24] is not summed exactly; a quotient less than
    half a unit in the last place above 1.5 is 1.5 once rounded. *)
Example float32_ex :
  round32 16777217 = 16777216 ∧ round32 16777219 = 16777220 ∧
  round32 (-16777217) = -16777216 ∧ round32 33554434 = 33554432 ∧
  fadd 16777215 1 = 16777216 ∧ fadd 16777216 1 = 16777216 ∧
  float_sum [16777217] = 16777216 ∧ float_sum [1; 2; 2] = 5 ∧
  gt_1_5 (fdiv 3 2) = false ∧ gt_1_5 (fdiv 2 1) = true ∧
  gt_1_5 (fdiv 12582914 8388609) = false ∧
  gt_1_5 (fdiv 12582915 8388609) = true.
Proof. split_and!; vm_compute; reflexivity. Qed.

(** * Properties of the grouped index builder *)

Section dict.
Context {V : Type}.
Implicit Types (k : key) (d : list (key * V)).

Lemma dict_get_None k d : dict_get k d = None ↔ k ∉ d.*1.
Proof.
  induction d as [|[k' v] d IH]; simpl.
  - split; [intros _; apply not_elem_of_nil | done].
  - rewrite not_elem_of_cons. destruct (decide (k' = k)) as [->|Hne].
    + split; [done | intros [? _]; done].
    + rewrite IH. split; [by split | by intros [_ ?]].
Qed.

Lemma dict_get_Some_elem_of k v d : dict_get k d = Some v → (k, v) ∈ d.
Proof.
  induction d as [|[k' v'] d IH]; simpl; [done|].
  case_decide; subst.
  - intros [= ->]. left.
  - intros. right. auto.
Qed.

Lemma elem_of_dict_get k v d : NoDup d.*1 → (k, v) ∈ d → dict_get k d = Some v.
Proof.
  induction d as [|[k' v'] d IH]; simpl; [by intros _ ?%elem_of_nil|].
  intros [Hk Hd]%NoDup_cons [[= <- <-]|Hin]%elem_of_cons.
  - by rewrite decide_True.
  - rewrite decide_False; [by apply IH|].
    intros ->. apply Hk. by apply (list_elem_of_fmap_2 fst _ (k, v)).
Qed.

Lemma dict_get_fmap {W} (f : V → W) k d :
  dict_get k ((λ '(k, v), (k, f v)) <$> d) = f <$> dict_get k d.
Proof.
  induction d as [|[k' v] d IH]; simpl; [done|]. by case_decide.
Qed.

Lemma dict_keys_fmap {W} (f : V → W) d :
  ((λ '(k, v), (k, f v)) <$> d).*1 = d.*1.
Proof. induction d as [|[k' v] d IH]; [done|]. cbn. by f_equal. Qed.
End dict.

Section append.
Implicit Types (k : key) (v : Z) (d : list (key * list Z)).

Lemma dict_get_append k k' v d :
  dict_get k' (dict_append k v d)
  = if decide (k = k') then Some (default [] (dict_get k' d) ++ [v])
    else dict_get k' d.
Proof.
  induction d as [|[k0 vs] d IH]; simpl.
  - repeat case_decide; by subst.
  - destruct (decide (k0 = k)) as [->|Hne]; simpl.
    + repeat case_decide; by subst.
    + rewrite IH. repeat case_decide; by subst.
Qed.

Lemma dict_append_keys k v d :
  (dict_append k v d).*1 = if decide (k ∈ d.*1) then d.*1 else d.*1 ++ [k].
Proof.
  induction d as [|[k0 vs] d IH]; cbn [dict_append fmap list_fmap fst].
  - case_decide as Hin; [by apply elem_of_nil in Hin | done].
  - destruct (decide (k0 = k)) as [->|Hne]; cbn [fmap list_fmap fst].
    + rewrite decide_True; [done | left].
    + change (list_fmap _ _ fst ?l) with (l.*1). rewrite IH.
      destruct (decide (k ∈ d.*1)) as [Hin|Hin].
      * rewrite decide_True; [done | by right].
      * rewrite decide_False; [done|]. rewrite not_elem_of_cons. by split.
Qed.

Lemma dict_append_NoDup k v d : NoDup d.*1 → NoDup (dict_append k v d).*1.
Proof.
  intros Hd. rewrite dict_append_keys. case_decide; [done|].
  apply NoDup_app. split_and!; [done | | apply NoDup_singleton].
  intros x Hx ->%list_elem_of_singleton. done.
Qed.
End append.

Lemma raw_groups_snoc rows k v :
  raw_groups (rows ++ [(k, v)]) = dict_append k v (raw_groups rows).
Proof. unfold raw_groups. by rewrite foldl_app. Qed.

Lemma completions_snoc k rows k' v :
  completions k (rows ++ [(k', v)])
  = completions k rows ++ (if decide (k' = k) then [v] else []).
Proof.
  unfold completions. rewrite filter_app, fmap_app. f_equal.
  rewrite filter_cons, filter_nil. simpl. by case_decide.
Qed.

(** After the first loop, a key is present exactly when some row carries it,
    and it maps to the values of those rows in row order. *)
Lemma raw_groups_get rows k :
  dict_get k (raw_groups rows)
  = match completions k rows with [] => None | l => Some l end.
Proof.
  induction rows as [|[k' v] rows IH] using rev_ind; [done|].
  rewrite raw_groups_snoc, dict_get_append, completions_snoc, IH.
  case_decide; subst.
  - by destruct (completions k rows).
  - by rewrite app_nil_r.
Qed.

Lemma raw_groups_NoDup rows : NoDup (raw_groups rows).*1.
Proof.
  induction rows as [|[k' v] rows IH] using rev_ind; [apply NoDup_nil_2|].
  rewrite raw_groups_snoc. by apply dict_append_NoDup.
Qed.

(** The keys come in the order of their first occurrence in the rows. *)
Lemma raw_groups_keys rows :
  (raw_groups rows).*1 = reverse (remove_dups (reverse rows.*1)).
Proof.
  induction rows as [|[k v] rows IH] using rev_ind; [done|].
  rewrite raw_groups_snoc, dict_append_keys, fmap_app, reverse_app, IH.
  change (reverse ((k, v) :: []).*1) with [k]. cbn [app remove_dups].
  destruct (decide (k ∈ reverse (remove_dups (reverse rows.*1)))) as [Hin|Hin];
    rewrite elem_of_reverse, elem_of_remove_dups in Hin;
    destruct (decide_rel elem_of k (reverse rows.*1)) as [Hin'|Hin']; try done.
  by rewrite reverse_cons.
Qed.

Lemma group_by_sp_po_unfold ks vs :
  Dataset.group_by_sp_po ks vs
  = (λ '(k, l), (k, sorted l)) <$> raw_groups (zip ks vs).
Proof. reflexivity. Qed.

Lemma group_by_sp_po_NoDup ks vs : NoDup (Dataset.group_by_sp_po ks vs).*1.
Proof.
  rewrite group_by_sp_po_unfold, dict_keys_fmap. apply raw_groups_NoDup.
Qed.

(** The builder, key by key. *)
Lemma group_by_sp_po_get ks vs k :
  dict_get k (Dataset.group_by_sp_po ks vs)
  = match completions k (zip ks vs) with
    | [] => None
    | l => Some (sorted l)
    end.
Proof.
  rewrite group_by_sp_po_unfold, dict_get_fmap, raw_groups_get.
  by destruct (completions k (zip ks vs)).
Qed.

Lemma group_by_sp_po_elem_of ks vs k l :
  (k, l) ∈ Dataset.group_by_sp_po ks vs ↔
  completions k (zip ks vs) ≠ [] ∧ l = sorted (completions k (zip ks vs)).
Proof.
  split.
  - intros Hin%elem_of_dict_get; [|apply group_by_sp_po_NoDup].
    rewrite group_by_sp_po_get in Hin.
    destruct (completions k (zip ks vs)); naive_solver.
  - intros [Hne ->]. apply dict_get_Some_elem_of.
    rewrite group_by_sp_po_get. by destruct (completions k (zip ks vs)).
Qed.

Lemma raw_groups_nil rows : raw_groups rows = [] → rows = [].
Proof.
  destruct rows as [|[k v] rows]; [done|]. intros Hnil.
  pose proof (raw_groups_get ((k, v) :: rows) k) as Hget.
  rewrite Hnil in Hget. unfold completions in Hget.
  rewrite filter_cons_True in Hget by done. done.
Qed.

(** The builder returns the empty dictionary only on an empty split. *)
Lemma group_by_sp_po_nil ks vs :
  Dataset.group_by_sp_po ks vs = [] → zip ks vs = [].
Proof.
  rewrite group_by_sp_po_unfold. intros Hnil%fmap_nil_inv.
  by apply raw_groups_nil.
Qed.

Lemma sorted_Sorted l : Sorted Z.le (sorted l).
Proof. apply (Sorted_merge_sort Z.le). Qed.

Lemma sorted_Permutation l : sorted l ≡ₚ l.
Proof. apply merge_sort_Permutation. Qed.

Lemma elem_of_completions k x rows : x ∈ completions k rows ↔ (k, x) ∈ rows.
Proof.
  unfold completions. rewrite list_elem_of_fmap. split.
  - intros [[k' x'] [-> [Hk ?]%list_elem_of_filter]]. simpl in *. by subst.
  - intros Hin. exists (k, x). split; [done|]. by apply list_elem_of_filter.
Qed.

Lemma rows_of_fmap c v triples :
  rows_of c v triples
  = (λ t, ((column c.1 t, column c.2 t), column v t)) <$> triples.
Proof.
  unfold rows_of, tensor_cols, tensor_col.
  induction triples as [|t triples IH]; [done|]. cbn. by f_equal.
Qed.

Lemma elem_of_sp_rows triples s p o :
  (s, p, o) ∈ triples ↔ o ∈ completions (s, p) (rows_of (0, 1)%nat 2 triples).
Proof.
  rewrite elem_of_completions, rows_of_fmap, list_elem_of_fmap. split.
  - intros Hin. by exists (s, p, o).
  - intros [[[s' p'] o'] [[= -> -> ->] Hin]]. done.
Qed.

Lemma elem_of_po_rows triples s p o :
  (s, p, o) ∈ triples ↔ s ∈ completions (p, o) (rows_of (1, 2)%nat 0 triples).
Proof.
  rewrite elem_of_completions, rows_of_fmap, list_elem_of_fmap. split.
  - intros Hin. by exists (s, p, o).
  - intros [[[s' p'] o'] [[= -> -> ->] Hin]]. done.
Qed.

(** C6. Round trip of the grouped index: every row [(s,p,o)] of a triple
    array has [o] in the completion list of [(s,p)] in the sp index and [s]
    in the completion list of [(p,o)] in the po index; conversely every
    element of every completion list of either index comes from a row of
    the array with that key. *)
Theorem grouped_index_round_trip (triples : list triple) :
  (∀ s p o, (s, p, o) ∈ triples →
     (∃ l, dict_get (s, p) (sp_index triples) = Some l ∧ o ∈ l) ∧
     (∃ l, dict_get (p, o) (po_index triples) = Some l ∧ s ∈ l)) ∧
  (∀ s p l o, ((s, p), l) ∈ sp_index triples → o ∈ l → (s, p, o) ∈ triples) ∧
  (∀ p o l s, ((p, o), l) ∈ po_index triples → s ∈ l → (s, p, o) ∈ triples).
Proof.
  split_and!.
  - intros s p o Hin. split.
    + apply elem_of_sp_rows in Hin.
      exists (sorted (completions (s, p) (rows_of (0, 1)%nat 2 triples))).
      split; [|by rewrite sorted_Permutation].
      unfold sp_index. rewrite group_by_sp_po_get.
      fold (rows_of (0, 1)%nat 2 triples).
      destruct (completions _ _); [by apply elem_of_nil in Hin | done].
    + apply elem_of_po_rows in Hin.
      exists (sorted (completions (p, o) (rows_of (1, 2)%nat 0 triples))).
      split; [|by rewrite sorted_Permutation].
      unfold po_index. rewrite group_by_sp_po_get.
      fold (rows_of (1, 2)%nat 0 triples).
      destruct (completions _ _); [by apply elem_of_nil in Hin | done].
  - intros s p l o [_ ->]%group_by_sp_po_elem_of Ho.
    rewrite sorted_Permutation in Ho. by apply elem_of_sp_rows.
  - intros p o l s [_ ->]%group_by_sp_po_elem_of Hs.
    rewrite sorted_Permutation in Hs. by apply elem_of_po_rows.
Qed.

Lemma grouped_index_round_trip_witness :
  (0, 0, 2) ∈ [(0, 0, 1); (0, 0, 2); (1, 0, 2)] ∧
  (∃ l, dict_get (0, 0) (sp_index [(0, 0, 1); (0, 0, 2); (1, 0, 2)]) = Some l ∧ 2 ∈ l) ∧
  (∃ l, dict_get (0, 2) (po_index [(0, 0, 1); (0, 0, 2); (1, 0, 2)]) = Some l ∧ 0 ∈ l).
Proof.
  assert (Hin : (0, 0, 2) ∈ [(0, 0, 1); (0, 0, 2); (1, 0, 2)])
    by (apply list_elem_of_further, list_elem_of_here).
  split; [exact Hin|].
  exact (proj1 (grouped_index_round_trip [(0, 0, 1); (0, 0, 2); (1, 0, 2)]) 0 0 2 Hin).
Defined.

(** C7. Every completion list produced by the builder is non-decreasing,
    and it keeps duplicates: it is a rearrangement of the values of the
    source rows with its key, so its length is the number of those rows. *)
Theorem group_by_sp_po_sorted_keeps_duplicates
    (sp_po_list : list key) (o_s_list : list Z) (k : key) (l : list Z) :
  (k, l) ∈ Dataset.group_by_sp_po sp_po_list o_s_list →
  Sorted Z.le l ∧
  l ≡ₚ completions k (zip sp_po_list o_s_list) ∧
  length l = length (filter (λ r, r.1 = k) (zip sp_po_list o_s_list)).
Proof.
  intros [_ ->]%group_by_sp_po_elem_of. split_and!.
  - apply sorted_Sorted.
  - apply sorted_Permutation.
  - rewrite sorted_Permutation. unfold completions. by rewrite length_fmap.
Qed.

Lemma group_by_sp_po_sorted_keeps_duplicates_witness :
  ((0, 0), [1; 2; 2]) ∈ Dataset.group_by_sp_po [(0,0); (1,0); (0,0); (0,0)] [2; 2; 1; 2] ∧
  Sorted Z.le [1; 2; 2] ∧
  [1; 2; 2] ≡ₚ completions (0, 0) (zip [(0,0); (1,0); (0,0); (0,0)] [2; 2; 1; 2]) ∧
  length [1; 2; 2]
  = length (filter (λ r : key * Z, r.1 = (0, 0)) (zip [(0,0); (1,0); (0,0); (0,0)] [2; 2; 1; 2])).
Proof.
  assert (Hin : ((0, 0), [1; 2; 2])
                ∈ Dataset.group_by_sp_po [(0,0); (1,0); (0,0); (0,0)] [2; 2; 1; 2])
    by (vm_compute; apply list_elem_of_here).
  split; [exact Hin|].
  exact (group_by_sp_po_sorted_keeps_duplicates _ _ _ _ Hin).
Defined.

(** * Properties of the index cache *)

(** C8. A split other than train, valid, test, or a direction other than
    sp, po, makes [index_1toN] raise [ValueError] (Python's invalid
    argument error), and the call leaves the dataset, its cache included,
    exactly as it was. *)
Theorem index_1toN_invalid_argument (split sp_po : string) (self : Dataset.t) :
  split ∉ ["train"; "valid"; "test"] ∨ sp_po ∉ ["sp"; "po"] →
  Dataset.index_1toN split sp_po self = (inl ValueError, self).
Proof.
  unfold Dataset.index_1toN. intros [Hsplit|Hdir].
  - repeat case_decide; subst; try done; exfalso; apply Hsplit;
      repeat first [by left | right].
  - assert (sp_po ≠ "sp") by (intros ->; apply Hdir; left).
    assert (sp_po ≠ "po") by (intros ->; apply Hdir; right; left).
    repeat case_decide; done.
Qed.

Lemma index_1toN_invalid_argument_witness :
  ("bogus" ∉ ["train"; "valid"; "test"] ∨ "xy" ∉ ["sp"; "po"]) ∧
  ∀ self, Dataset.index_1toN "bogus" "xy" self = (inl ValueError, self).
Proof.
  assert (H : "bogus" ∉ ["train"; "valid"; "test"] ∨ "xy" ∉ ["sp"; "po"]).
  { left. intros Hin. repeat (apply elem_of_cons in Hin as [Hin|Hin]; [discriminate|]).
    by apply elem_of_nil in Hin. }
  split; [exact H|].
  intros self. exact (index_1toN_invalid_argument "bogus" "xy" self H).
Defined.

(** [index_1toN] on valid arguments: either the cached entry is truthy and
    is returned as it is, or the index is built, stored and logged. *)
Lemma index_1toN_valid split sp_po triples cols value_column self :
  split_triples split self = Some triples →
  direction_cols sp_po = Some (cols, value_column) →
  Dataset.index_1toN split sp_po self
  = if Dataset.truthy (Dataset.indexes self !! (split +:+ "_" +:+ sp_po))
    then (inr (Dataset.indexes self !! (split +:+ "_" +:+ sp_po)), self)
    else
      let index := Dataset.group_by_sp_po (tensor_cols cols triples)
                                          (tensor_col value_column triples) in
      (inr (Some index), after_build split sp_po index self).
Proof.
  unfold split_triples, direction_cols, Dataset.index_1toN.
  intros Hsplit Hdir.
  assert (Hgo : ∀ (r : result (list triple)) (c : result ((nat * nat) * nat)),
            r = inr triples → c = inr (cols, value_column) →
            match r with
            | inl e => (inl e, self)
            | inr triples =>
                match c with
                | inl e => (inl e, self)
                | inr (sp_po_cols, value_column) =>
                    let name := split +:+ "_" +:+ sp_po in
                    let self :=
                      if negb (Dataset.truthy (Dataset.indexes self !! name)) then
                        let index :=
                          Dataset.group_by_sp_po (tensor_cols sp_po_cols triples)
                            (tensor_col value_column triples) in
                        let self := Dataset.set_indexes (insert name index) self in
                        Dataset.log (pretty (length index) +:+ " distinct " +:+ sp_po
                                       +:+ " pairs in " +:+ split) self
                      else self in
                    (inr (Dataset.indexes self !! name), self)
                end
            end
            = if Dataset.truthy (Dataset.indexes self !! (split +:+ "_" +:+ sp_po))
              then (inr (Dataset.indexes self !! (split +:+ "_" +:+ sp_po)), self)
              else
                let index := Dataset.group_by_sp_po (tensor_cols cols triples)
                               (tensor_col value_column triples) in
                (inr (Some index), after_build split sp_po index self)).
  { intros r c -> ->. cbv zeta.
    destruct (Dataset.truthy _); cbn [negb]; [done|].
    unfold after_build. f_equal. f_equal.
    cbn [Dataset.indexes Dataset.log Dataset.set_indexes].
    apply lookup_insert_eq. }
  apply Hgo.
  - repeat case_decide; by simplify_eq.
  - repeat case_decide; by simplify_eq.
Qed.

Lemma after_build_indexes split sp_po index self :
  Dataset.indexes (after_build split sp_po index self)
  = <[split +:+ "_" +:+ sp_po := index]> (Dataset.indexes self).
Proof. done. Qed.

Lemma after_build_builds split sp_po index self :
  builds (after_build split sp_po index self) = S (builds self).
Proof.
  unfold builds, after_build, Dataset.log. cbn [Dataset.config_log].
  rewrite length_app. cbn [length Dataset.set_indexes Dataset.config_log]. lia.
Qed.

Lemma split_triples_is_Some split self :
  split ∈ ["train"; "valid"; "test"] → is_Some (split_triples split self).
Proof.
  intros Hsplit. unfold split_triples.
  repeat (apply elem_of_cons in Hsplit as [->|Hsplit]);
    [| | |by apply elem_of_nil in Hsplit]; repeat case_decide; done.
Qed.

Lemma direction_cols_is_Some sp_po :
  sp_po ∈ ["sp"; "po"] → is_Some (direction_cols sp_po).
Proof.
  intros Hdir. unfold direction_cols.
  repeat (apply elem_of_cons in Hdir as [->|Hdir]);
    [| |by apply elem_of_nil in Hdir]; repeat case_decide; done.
Qed.

(** Once a non-empty index is cached under a name, a call for that name
    returns it and changes nothing: no build, no log line. *)
Lemma index_1toN_cached split sp_po index self :
  split ∈ ["train"; "valid"; "test"] → sp_po ∈ ["sp"; "po"] →
  Dataset.indexes self !! (split +:+ "_" +:+ sp_po) = Some index →
  index ≠ [] →
  Dataset.index_1toN split sp_po self = (inr (Some index), self).
Proof.
  intros [triples Hsplit]%(split_triples_is_Some _ self)
         [[cols vc] Hdir]%direction_cols_is_Some Hget Hne.
  rewrite (index_1toN_valid _ _ _ _ _ _ Hsplit Hdir), Hget.
  by destruct index.
Qed.

(** The part of the caching guarantee that the code keeps: when the split
    has at least one triple, a second call returns the very structure of
    the first and performs no build. *)
Lemma index_1toN_second_call split sp_po triples self r self' :
  split_triples split self = Some triples → triples ≠ [] →
  sp_po ∈ ["sp"; "po"] →
  Dataset.indexes self !! (split +:+ "_" +:+ sp_po) = None →
  Dataset.index_1toN split sp_po self = (r, self') →
  Dataset.index_1toN split sp_po self' = (r, self') ∧
  builds self' = S (builds self).
Proof.
  intros Hsplit Hne Hdir Hget.
  assert (Hvalid : split ∈ ["train"; "valid"; "test"]).
  { unfold split_triples in Hsplit.
    repeat case_decide; subst; try done; repeat first [by left | right]. }
  destruct (direction_cols_is_Some _ Hdir) as [[cols vc] Hcols].
  rewrite (index_1toN_valid _ _ _ _ _ _ Hsplit Hcols), Hget. cbn.
  intros [= <- <-]. split; [|apply after_build_builds].
  apply index_1toN_cached; [done | done | by rewrite after_build_indexes, lookup_insert_eq |].
  intros Hnil%group_by_sp_po_nil. fold (rows_of cols vc triples) in Hnil.
  rewrite rows_of_fmap in Hnil. by apply fmap_nil_inv in Hnil.
Qed.

(** On an empty split the entry stored by a build is the empty dictionary,
    which is falsy: the call builds, and the next call is in the same
    situation again. *)
Lemma index_1toN_empty_split split sp_po self :
  split_triples split self = Some [] → sp_po ∈ ["sp"; "po"] →
  Dataset.truthy (Dataset.indexes self !! (split +:+ "_" +:+ sp_po)) = false →
  Dataset.index_1toN split sp_po self
  = (inr (Some []), after_build split sp_po [] self) ∧
  builds (after_build split sp_po [] self) = S (builds self) ∧
  Dataset.truthy
    (Dataset.indexes (after_build split sp_po [] self) !! (split +:+ "_" +:+ sp_po))
  = false.
Proof.
  intros Hsplit [[cols vc] Hdir]%direction_cols_is_Some Hfalsy.
  rewrite (index_1toN_valid _ _ _ _ _ _ Hsplit Hdir), Hfalsy.
  split_and!; [done | apply after_build_builds |].
  by rewrite after_build_indexes, lookup_insert_eq.
Qed.

(** C3. Evaluation of the code where the caching guarantee breaks: on a
    dataset whose valid split is empty, two successive calls of
    [index_1toN "valid" "sp"] both return the empty index, and each of them
    calls the builder (the third and fourth builds of this dataset, after
    the two of the constructor): the empty dictionary stored by the first
    call is falsy, so [not self.indexes.get(name)] holds again. *)
Theorem index_1toN_rebuilds_on_empty_split :
  ∃ d d1 d2,
    Dataset.__init__ [] 3 [[]; []; []] 1 [[]]
      [(0, 0, 1); (0, 0, 2); (1, 0, 2)] [[]; []; []] [] [] [] [] = inr d ∧
    Dataset.indexes d !! "valid_sp" = None ∧
    Dataset.index_1toN "valid" "sp" d = (inr (Some []), d1) ∧
    Dataset.indexes d1 !! "valid_sp" = Some [] ∧
    Dataset.index_1toN "valid" "sp" d1 = (inr (Some []), d2) ∧
    builds d = 2%nat ∧ builds d1 = 3%nat ∧ builds d2 = 4%nat ∧
    Dataset.config_log d2
    = ["2 distinct sp pairs in train"; "2 distinct po pairs in train";
       "0 distinct sp pairs in valid"; "0 distinct sp pairs in valid"].
Proof.
  do 3 eexists. split_and!; [vm_compute; reflexivity..].
Qed.

(** * Properties of the compact view *)

Lemma cumsum_from_lens {A} acc (ls : list (list A)) i :
  (i < length ls)%nat →
  cumsum_from acc (len <$> ls) !! i = Some (acc + len (concat (take (S i) ls))).
Proof.
  revert acc i. induction ls as [|l ls IH]; intros acc i Hi; simpl in Hi; [lia|].
  destruct i as [|i]; cbn [fmap list_fmap cumsum_from lookup list_lookup take concat].
  - by rewrite app_nil_r.
  - change (list_fmap _ _ len ls) with (len <$> ls).
    rewrite IH by lia. f_equal. unfold len.
    change (l :: take (S i) ls) with (take (S (S i)) (l :: ls)).
    cbn [take concat]. rewrite !length_app. lia.
Qed.

Lemma length_cumsum_from acc t : length (cumsum_from acc t) = length t.
Proof. revert acc. induction t as [|x t IH]; intros acc; simpl; [done|]. by rewrite IH. Qed.

(** The offsets computed by [prepare_index]: entry [i] is the number of
    completions in the groups before group [i]. *)
Lemma offsets_lookup {A} (ls : list (list A)) i :
  (i ≤ length ls)%nat →
  torch_cumsum (0 :: (len <$> ls)) !! i = Some (len (concat (take i ls))).
Proof.
  intros Hi. unfold torch_cumsum. cbn [cumsum_from]. destruct i as [|i]; [done|].
  cbn [lookup list_lookup]. change (0 + 0) with 0.
  rewrite cumsum_from_lens by lia. f_equal.
Qed.

Lemma slice_group {A} (ls : list (list A)) i l :
  ls !! i = Some l →
  py_slice (len (concat (take i ls))) (len (concat (take (S i) ls))) (concat ls) = l.
Proof.
  intros Hl. unfold py_slice, len.
  assert (Hcat : concat ls = concat (take i ls) ++ l ++ concat (drop (S i) ls)).
  { rewrite <-(take_drop_middle _ _ _ Hl) at 1. by rewrite concat_app, concat_cons. }
  rewrite (take_S_r _ _ _ Hl), concat_app, length_app. simpl. rewrite app_nil_r.
  rewrite Hcat, Nat2Z.id, drop_app_length.
  replace (Z.to_nat (Z.of_nat (length (concat (take i ls)) + length l)
                     - Z.of_nat (length (concat (take i ls))))) with (length l) by lia.
  by rewrite take_app_length.
Qed.

(** The compact view of a non-empty index (keys in the iteration order of
    the index, offsets of length [m+1] from [0] to [T = len(values)], and
    slice [i] of the values equal to the completion list of key [i]). *)
Lemma prepare_index_compact_view (index : GroupedIndex) :
  index ≠ [] →
  ∃ values offsets,
    Dataset.prepare_index index = inr (index.*1, values, offsets) ∧
    length offsets = S (length index) ∧
    offsets !! 0%nat = Some 0 ∧
    offsets !! length index = Some (len values) ∧
    len values = foldr Z.add 0 (len <$> index.*2) ∧
    ∀ i k l, index !! i = Some (k, l) →
      index.*1 !! i = Some k ∧
      ∃ a b, offsets !! i = Some a ∧ offsets !! S i = Some b ∧
             py_slice a b values = l.
Proof.
  intros Hne. exists (concat index.*2), (torch_cumsum (0 :: (len <$> index.*2))).
  split_and!.
  - unfold Dataset.prepare_index, torch_cat. by destruct index.
  - unfold torch_cumsum. rewrite length_cumsum_from. simpl.
    by rewrite !length_fmap.
  - by rewrite offsets_lookup by lia.
  - rewrite <-(length_fmap snd index). rewrite offsets_lookup by lia.
    by rewrite firstn_all.
  - clear Hne. induction index as [|[k l] index IH]; [done|].
    cbn [fmap list_fmap snd concat foldr]. unfold len in *.
    rewrite length_app, Nat2Z.inj_add. f_equal. apply IH.
  - intros i k l Hi. split; [by rewrite list_lookup_fmap, Hi|].
    assert (Hl : index.*2 !! i = Some l) by by rewrite list_lookup_fmap, Hi.
    eexists _, _. split_and!; [| |by apply slice_group].
    + apply offsets_lookup. apply lookup_lt_Some in Hl. lia.
    + apply offsets_lookup. apply lookup_lt_Some in Hl. lia.
Qed.

(** On an index returned by the builder, every slice of the compact view is
    moreover sorted ascending. *)
Lemma prepare_index_slices_sorted ks vs i k l :
  Dataset.group_by_sp_po ks vs !! i = Some (k, l) → Sorted Z.le l.
Proof.
  intros Hin%list_elem_of_lookup_2. apply group_by_sp_po_elem_of in Hin as [_ ->].
  apply sorted_Sorted.
Qed.

(** C4. Evaluation of the code on the empty index: [prepare_index] raises
    (the [RuntimeError] of [torch.cat] on an empty list of tensors) instead
    of returning empty keys, empty values and the offsets [[0]]. *)
Theorem prepare_index_empty_raises :
  Dataset.prepare_index [] = inl RuntimeError.
Proof. reflexivity. Qed.

(** C5. Evaluation of the code at [m = 0]: for the index built from an
    empty split there is no compact view at all, in particular no offsets
    array of length [m + 1 = 1]. *)
Theorem prepare_index_no_view_of_empty_split :
  Dataset.group_by_sp_po [] [] = [] ∧
  ¬ ∃ keys values offsets,
      Dataset.prepare_index (Dataset.group_by_sp_po [] []) = inr (keys, values, offsets).
Proof.
  split; [done|]. intros (keys & values & offsets & H). discriminate H.
Qed.

(** * Properties of the relation type classifier *)

Section tensor.
Implicit Types (t : tensor2) (i j r : nat) (v : Z).

Lemma norm_index_inr n (z : Z) r : norm_index n z = inr r → (r < n)%nat.
Proof. unfold norm_index. repeat case_bool_decide; intros [= <-]; lia. Qed.

Lemma norm_index_inl n (z : Z) e : norm_index n z = inl e → e = IndexError.
Proof. unfold norm_index. repeat case_bool_decide; by intros [= <-]. Qed.

Lemma norm_index_in_range n (z : Z) :
  0 ≤ z < Z.of_nat n → norm_index n z = inr (Z.to_nat z).
Proof. intros Hz. unfold norm_index. by rewrite bool_decide_true. Qed.

Lemma norm_index_of_nat n i r :
  norm_index n (Z.of_nat i) = inr r ↔ r = i ∧ (i < n)%nat.
Proof.
  unfold norm_index. repeat case_bool_decide; split;
    try (intros [= <-]); try (intros [-> ?]); try lia;
    try (f_equal; lia); try done.
Qed.

Lemma norm_index_too_large n (z : Z) :
  Z.of_nat n ≤ z → norm_index n z = inl IndexError.
Proof.
  intros Hz. unfold norm_index.
  rewrite !bool_decide_false by lia. done.
Qed.

Lemma length_set_entry t r j v : length (set_entry t r j v) = length t.
Proof. apply length_insert. Qed.

Lemma six_columns_set_entry t r j v :
  six_columns t → six_columns (set_entry t r j v).
Proof.
  unfold six_columns, set_entry. intros Ht.
  destruct (decide (r < length t)%nat) as [Hr|Hr].
  - apply Forall_insert; [done|]. rewrite length_insert.
    apply (Forall_lookup_1 _ _ r (t !!! r)) in Ht; [done|].
    by apply list_lookup_lookup_total_lt.
  - by rewrite (list_insert_ge t) by lia.
Qed.

Lemma entry_set_entry_ne t r j v i j' :
  i ≠ r ∨ j' ≠ j → entry (set_entry t r j v) i j' = entry t i j'.
Proof.
  unfold entry, set_entry. intros Hne.
  destruct (decide (i = r)) as [->|Hi].
  - destruct (decide (r < length t)%nat) as [Hr|Hr].
    + rewrite list_lookup_total_insert_eq by done.
      rewrite list_lookup_total_insert_ne; [done|]. intros ->. by destruct Hne.
    + by rewrite (list_insert_ge t) by lia.
  - by rewrite list_lookup_total_insert_ne.
Qed.

Lemma entry_set_entry_eq t r j v :
  (r < length t)%nat → (j < length (t !!! r))%nat →
  entry (set_entry t r j v) r j = v.
Proof.
  unfold entry, set_entry. intros Hr Hj.
  rewrite list_lookup_total_insert_eq by done.
  by rewrite list_lookup_total_insert_eq.
Qed.

Lemma length_stats_update p r sum t :
  length (stats_update p r sum t) = length t.
Proof. unfold stats_update. by rewrite !length_set_entry. Qed.

Lemma six_columns_stats_update p r sum t :
  six_columns t → six_columns (stats_update p r sum t).
Proof. intros. unfold stats_update. by do 2 apply six_columns_set_entry. Qed.

Lemma entry_stats_update_ne p r sum t i j :
  i ≠ r ∨ (j ≠ (0 + p * 2)%nat ∧ j ≠ (1 + p * 2)%nat) →
  entry (stats_update p r sum t) i j = entry t i j.
Proof.
  intros Hne. unfold stats_update. cbv zeta.
  rewrite !entry_set_entry_ne; [done | tauto | tauto].
Qed.

(** The body of the inner loop: an index error, or the update of a row. *)
Lemma stats_body_spec p t prefix labels :
  Dataset.stats_body p t (prefix, labels)
  = match norm_index (length t) (key_at prefix p) with
    | inl e => inl e
    | inr r => inr (stats_update p r (float_sum labels) t)
    end.
Proof.
  unfold Dataset.stats_body, tensor_set, tensor_get.
  destruct (norm_index (length t) (key_at prefix p)) as [e|r] eqn:Hr; [done|].
  cbn [rbind]. rewrite length_insert, Hr. done.
Qed.
End tensor.

(** A run of the inner loop that raises, raises [IndexError], on a key
    whose predicate is out of range. *)
Lemma for_each_stats_inl p index t e :
  for_each (Dataset.stats_body p) t index = inl e →
  e = IndexError ∧
  ∃ prefix labels, (prefix, labels) ∈ index ∧
    norm_index (length t) (key_at prefix p) = inl IndexError.
Proof.
  revert t. induction index as [|[prefix labels] index IH]; intros t; [done|].
  cbn [for_each]. rewrite stats_body_spec.
  destruct (norm_index (length t) (key_at prefix p)) as [e'|r] eqn:Hr; cbn [rbind].
  - intros [= ->]. pose proof (norm_index_inl _ _ _ Hr) as ->.
    split; [done|]. exists prefix, labels. split; [left | done].
  - intros Hrun. destruct (IH _ Hrun) as [-> (prefix' & labels' & Hin & Hbad)].
    split; [done|].
    exists prefix', labels'. split; [by right|].
    by rewrite length_stats_update in Hbad.
Qed.

(** A run of the inner loop for [p] that completes has met only keys with
    an index in range, keeps the shape of the table, and leaves alone every
    entry outside the two columns of [p] and every row that no key hits. *)
Lemma for_each_stats_inr p index t t' :
  for_each (Dataset.stats_body p) t index = inr t' →
  (∀ prefix labels, (prefix, labels) ∈ index →
     ∃ r, norm_index (length t) (key_at prefix p) = inr r) ∧
  length t' = length t ∧
  (six_columns t → six_columns t') ∧
  ∀ i j,
    (j ≠ (0 + p * 2)%nat ∧ j ≠ (1 + p * 2)%nat) ∨
    (∀ prefix labels, (prefix, labels) ∈ index →
       norm_index (length t) (key_at prefix p) ≠ inr i) →
    entry t' i j = entry t i j.
Proof.
  revert t. induction index as [|[prefix labels] index IH]; intros t.
  - intros [= <-]. split_and!; try done. by intros ?? ?%elem_of_nil.
  - cbn [for_each]. rewrite stats_body_spec.
    destruct (norm_index (length t) (key_at prefix p)) as [e'|r] eqn:Hr;
      cbn [rbind]; [done|].
    pose proof (length_stats_update p r (float_sum labels) t) as Hlen0.
    intros Hrun. destruct (IH _ Hrun) as (Hrange & Hlen & Hsix & Hsame).
    rewrite Hlen0 in Hrange, Hlen, Hsame. split_and!.
    + intros prefix' labels' [[= -> ->]|Hin]%elem_of_cons; [by exists r|].
      by apply (Hrange prefix' labels').
    + done.
    + intros. by apply Hsix, six_columns_stats_update.
    + intros i j Hij. rewrite Hsame.
      * apply entry_stats_update_ne. destruct Hij as [Hj|Hi]; [by right|].
        left. intros ->. apply (Hi prefix labels); [left | done].
      * destruct Hij as [Hj|Hi]; [by left|]. right.
        intros prefix' labels' Hin. apply (Hi prefix' labels'). by right.
Qed.

Lemma relation_stats_fresh self :
  Dataset.indexes self = ∅ →
  Dataset.relation_stats self
  = (try! t := filled_stats (Dataset.num_relations self) (Dataset.train self) in
     inr (Dataset.threshold_stats t),
     after_train_indexes self).
Proof.
  intros Hempty. unfold Dataset.relation_stats, Dataset.mbind.
  rewrite (index_1toN_valid "train" "sp" (Dataset.train self) (0, 1)%nat 2%nat)
    by done.
  rewrite Hempty, lookup_empty. cbn [Dataset.truthy]. cbv zeta.
  rewrite (index_1toN_valid "train" "po" (Dataset.train self) (1, 2)%nat 0%nat)
    by done.
  rewrite after_build_indexes, lookup_insert_ne, Hempty, lookup_empty by done.
  cbn [Dataset.truthy]. cbv zeta.
  unfold Dataset.lift, after_train_indexes, filled_stats, Dataset.fill_stats.
  fold (sp_index (Dataset.train self)). fold (po_index (Dataset.train self)).
  f_equal. cbn [for_each].
  destruct (for_each (Dataset.stats_body 1) _ _) as [e|t1]; [done|]. cbn [rbind].
  by destruct (for_each (Dataset.stats_body 0) _ _).
Qed.

Lemma get_relation_types_fresh self :
  Dataset.indexes self = ∅ →
  Dataset._get_relation_types self
  = (classify (Dataset.num_relations self) (Dataset.relations self)
              (Dataset.train self),
     after_train_indexes self).
Proof.
  intros Hempty. unfold Dataset._get_relation_types, Dataset.mbind.
  rewrite relation_stats_fresh by done. unfold classify.
  by destruct (filled_stats _ _).
Qed.

(** The constructor, in terms of [classify]. *)
Lemma init_classify config num_entities entities num_relations relations
    train train_meta valid valid_meta test test_meta :
  Dataset.__init__ config num_entities entities num_relations relations
    train train_meta valid valid_meta test test_meta
  = match classify num_relations relations train with
    | inl e => inl e
    | inr types =>
        inr (Dataset.mk
               (Dataset.config_log
                  (after_train_indexes
                     (fresh config num_entities entities num_relations relations
                        train train_meta valid valid_meta test test_meta)))
               num_entities entities num_relations relations
               train train_meta valid valid_meta test test_meta
               (Dataset.indexes
                  (after_train_indexes
                     (fresh config num_entities entities num_relations relations
                        train train_meta valid valid_meta test test_meta)))
               types (Dataset.per_type types))
    end.
Proof.
  unfold Dataset.__init__.
  change (Dataset.mk config num_entities entities num_relations relations
            train train_meta valid valid_meta test test_meta ∅ ∅ ∅)
    with (fresh config num_entities entities num_relations relations
            train train_meta valid valid_meta test test_meta).
  rewrite (get_relation_types_fresh
             (fresh config num_entities entities num_relations relations
                train train_meta valid valid_meta test test_meta)) by done.
  done.
Qed.

Section threshold.
Implicit Types (t : tensor2) (i j : nat).

Lemma lookup_total_fmap_rows (f : list Z → list Z) t i :
  (i < length t)%nat → (f <$> t) !!! i = f (t !!! i).
Proof. apply list_lookup_total_fmap. Qed.

Lemma length_threshold_stats t : length (Dataset.threshold_stats t) = length t.
Proof.
  unfold Dataset.threshold_stats, set_column_gt_1_5. by rewrite !length_fmap.
Qed.

(** After thresholding, column 4 holds the comparison of columns 0 and 1,
    column 5 that of columns 2 and 3, and columns 0 to 3 are as before. *)
Lemma entry_threshold_stats t i :
  (i < length t)%nat → six_columns t →
  entry (Dataset.threshold_stats t) i 4
  = float_of_bool (gt_1_5 (fdiv (entry t i 0) (entry t i 1))) ∧
  entry (Dataset.threshold_stats t) i 5
  = float_of_bool (gt_1_5 (fdiv (entry t i 2) (entry t i 3))) ∧
  ∀ j, (j < 4)%nat → entry (Dataset.threshold_stats t) i j = entry t i j.
Proof.
  intros Hi Hsix. unfold entry, Dataset.threshold_stats, set_column_gt_1_5.
  rewrite !lookup_total_fmap_rows by (rewrite ?length_fmap; done).
  assert (Hrow : length (t !!! i) = 6%nat).
  { apply (Forall_lookup_1 _ _ i (t !!! i)) in Hsix; [done|].
    by apply list_lookup_lookup_total_lt. }
  set (row := t !!! i) in *. split_and!.
  - rewrite list_lookup_total_insert_ne by done.
    rewrite list_lookup_total_insert_eq by lia. done.
  - rewrite list_lookup_total_insert_eq by (rewrite length_insert; lia).
    by rewrite !(list_lookup_total_insert_ne _ 4) by done.
  - intros j Hj. by rewrite !list_lookup_total_insert_ne by lia.
Qed.
End threshold.

Lemma norm_index_nat n i :
  norm_index n (Z.of_nat i)
  = if decide (i < n)%nat then inr i else inl IndexError.
Proof.
  unfold norm_index. case_decide.
  - rewrite bool_decide_true by lia. f_equal. lia.
  - by rewrite !bool_decide_false by lia.
Qed.

Lemma label_body_spec t m i relation :
  Dataset.label_body t m (i, relation)
  = if decide (i < length t)%nat
    then inr (<[i := Dataset.format_label (entry t i 4) (entry t i 5)]> m)
    else inl IndexError.
Proof.
  unfold Dataset.label_body, tensor_get. rewrite norm_index_nat. by case_decide.
Qed.

Lemma label_loop_inr t (l : list (list string)) a m0 m :
  for_each (Dataset.label_body t) m0 (zip (seq a (length l)) l) = inr m →
  (l = [] ∨ (a + length l ≤ length t)%nat) ∧
  ∀ i, m !! i
       = if decide (a ≤ i < a + length l)%nat
         then Some (Dataset.format_label (entry t i 4) (entry t i 5))
         else m0 !! i.
Proof.
  revert a m0. induction l as [|x l IH]; intros a m0.
  - intros [= <-]. split; [by left|]. intros i. rewrite decide_False; [done|].
    simpl. lia.
  - cbn [length seq zip zip_with for_each]. rewrite label_body_spec.
    case_decide as Ha; cbn [rbind]; [|done].
    intros Hrun. destruct (IH _ _ Hrun) as [Hlen Hm]. split.
    + right. destruct Hlen as [->|Hlen]; simpl; lia.
    + intros i. rewrite Hm. destruct (decide (i = a)) as [->|Hne].
      * rewrite decide_False by lia. rewrite lookup_insert_eq.
        by rewrite decide_True by lia.
      * rewrite lookup_insert_ne by done.
        destruct (decide (S a ≤ i < S a + length l)%nat).
        -- by rewrite decide_True by lia.
        -- by rewrite decide_False by lia.
Qed.

Lemma label_loop_total t (l : list (list string)) a m0 :
  (a + length l ≤ length t)%nat →
  ∃ m, for_each (Dataset.label_body t) m0 (zip (seq a (length l)) l) = inr m.
Proof.
  revert a m0. induction l as [|x l IH]; intros a m0 Hlen; [by eexists|].
  cbn [length seq zip zip_with for_each]. rewrite label_body_spec.
  simpl in Hlen. rewrite decide_True by lia. cbn [rbind].
  apply IH. lia.
Qed.

Lemma label_relations_unfold t relations :
  Dataset.label_relations t relations
  = for_each (Dataset.label_body t) ∅ (zip (seq 0 (length relations)) relations).
Proof. reflexivity. Qed.

Lemma nonempty_elem_of {A} (l : list A) : l ≠ [] → ∃ x, x ∈ l.
Proof. destruct l as [|x l]; [done|]. intros _. exists x. left. Qed.

(** Every key of the sp index is the subject and predicate of a triple,
    and every triple has its key in the index; likewise for the po index. *)
Lemma sp_index_key triples s p l :
  ((s, p), l) ∈ sp_index triples → ∃ o, (s, p, o) ∈ triples.
Proof.
  intros [[o Ho]%nonempty_elem_of _]%group_by_sp_po_elem_of.
  exists o. by apply elem_of_sp_rows.
Qed.

Lemma po_index_key triples p o l :
  ((p, o), l) ∈ po_index triples → ∃ s, (s, p, o) ∈ triples.
Proof.
  intros [[s Hs]%nonempty_elem_of _]%group_by_sp_po_elem_of.
  exists s. by apply elem_of_po_rows.
Qed.

Lemma sp_index_has_key triples s p o :
  (s, p, o) ∈ triples → ∃ l, ((s, p), l) ∈ sp_index triples.
Proof.
  intros Hin%elem_of_sp_rows. eexists. apply group_by_sp_po_elem_of.
  split; [|done]. intros Hnil. unfold rows_of in Hin. rewrite Hnil in Hin.
  by apply elem_of_nil in Hin.
Qed.

Lemma length_torch_zeros n m : length (torch_zeros n m) = n.
Proof. apply length_replicate. Qed.

Lemma six_columns_zeros n : six_columns (torch_zeros n 6).
Proof. apply Forall_replicate. done. Qed.

Lemma entry_zeros n i j :
  (i < n)%nat → (j < 6)%nat → entry (torch_zeros n 6) i j = 0.
Proof.
  intros Hi Hj. unfold entry, torch_zeros.
  rewrite lookup_total_replicate_2 by done.
  by rewrite lookup_total_replicate_2 by done.
Qed.

(** What a completed run of the two loops guarantees. *)
Lemma filled_stats_inr num_relations train t :
  filled_stats num_relations train = inr t →
  length t = num_relations ∧ six_columns t ∧
  (∀ s p l, ((s, p), l) ∈ sp_index train →
     ∃ r, norm_index num_relations p = inr r) ∧
  (∀ p o l, ((p, o), l) ∈ po_index train →
     ∃ r, norm_index num_relations p = inr r) ∧
  ∀ i, (i < num_relations)%nat →
    ((∀ s p l, ((s, p), l) ∈ sp_index train →
        norm_index num_relations p ≠ inr i) →
     entry t i 2 = 0 ∧ entry t i 3 = 0) ∧
    ((∀ p o l, ((p, o), l) ∈ po_index train →
        norm_index num_relations p ≠ inr i) →
     entry t i 0 = 0 ∧ entry t i 1 = 0).
Proof.
  unfold filled_stats.
  destruct (for_each (Dataset.stats_body 1) _ _) as [e|t1] eqn:Hsp; [done|].
  cbn [rbind]. intros Hpo.
  destruct (for_each_stats_inr _ _ _ _ Hsp) as (Hr1 & Hl1 & Hs1 & He1).
  destruct (for_each_stats_inr _ _ _ _ Hpo) as (Hr0 & Hl0 & Hs0 & He0).
  rewrite length_torch_zeros in Hr1, Hl1, He1. rewrite Hl1 in Hr0, Hl0, He0.
  split_and!.
  - done.
  - apply Hs0, Hs1, six_columns_zeros.
  - intros s p l Hin. apply (Hr1 (s, p) l Hin).
  - intros p o l Hin. apply (Hr0 (p, o) l Hin).
  - intros i Hi. split.
    + intros Hmiss.
      assert (∀ j, (j = 2 ∨ j = 3)%nat → entry t i j = 0) as Hj; [|split; apply Hj; auto].
      intros j Hj. rewrite He0 by (left; cbn; lia).
      rewrite He1; [apply entry_zeros; lia|].
      right. intros [s p] l Hin. by apply (Hmiss s p l).
    + intros Hmiss.
      assert (∀ j, (j = 0 ∨ j = 1)%nat → entry t i j = 0) as Hj; [|split; apply Hj; auto].
      intros j Hj. rewrite He0.
      * rewrite He1 by (left; cbn; lia). apply entry_zeros; lia.
      * right. intros [p o] l Hin. by apply (Hmiss p o l).
Qed.

(** The two loops can only raise [IndexError], and only on a training
    predicate that is not an index of the table. *)
Lemma filled_stats_inl num_relations train e :
  filled_stats num_relations train = inl e →
  e = IndexError ∧
  ∃ s p o, (s, p, o) ∈ train ∧ norm_index num_relations p = inl IndexError.
Proof.
  unfold filled_stats.
  destruct (for_each (Dataset.stats_body 1) _ _) as [e'|t1] eqn:Hsp; cbn [rbind].
  - intros [= ->].
    destruct (for_each_stats_inl _ _ _ _ Hsp) as [-> ([s p] & l & Hin & Hbad)].
    split; [done|]. rewrite length_torch_zeros in Hbad.
    destruct (sp_index_key _ _ _ _ Hin) as [o Ho]. by exists s, p, o.
  - intros Hpo.
    destruct (for_each_stats_inr _ _ _ _ Hsp) as (_ & Hl1 & _).
    destruct (for_each_stats_inl _ _ _ _ Hpo) as [-> ([p o] & l & Hin & Hbad)].
    split; [done|]. rewrite Hl1, length_torch_zeros in Hbad.
    destruct (po_index_key _ _ _ _ Hin) as [s Hs]. by exists s, p, o.
Qed.

Lemma row_length t i :
  six_columns t → (i < length t)%nat → length (t !!! i) = 6%nat.
Proof.
  intros Hsix Hi. apply (Forall_lookup_1 _ _ i (t !!! i)) in Hsix; [done|].
  by apply list_lookup_lookup_total_lt.
Qed.

(** Float32 sums that are exact, and the one that is not. *)
Lemma round32_small z : Z.abs z ≤ 2 ^ 24 → round32 z = z.
Proof. intros Hz. unfold round32. by rewrite bool_decide_eq_true_2. Qed.

(** A float32 count grows by one up to [2^24] and stays there:
    [16777216. + 1.] is [16777216.]. *)
Lemma fadd_one c : 0 ≤ c ≤ 2 ^ 24 → fadd c 1 = Z.min (c + 1) (2 ^ 24).
Proof.
  intros Hc. destruct (decide (c = 2 ^ 24)) as [->|Hne]; [by vm_compute|].
  unfold fadd. rewrite round32_small by lia. lia.
Qed.

Lemma abs_sum_bounds (labels : list Z) :
  Z.abs (foldr Z.add 0 labels) ≤ foldr Z.add 0 (Z.abs <$> labels) ∧
  Forall (λ x, Z.abs x ≤ foldr Z.add 0 (Z.abs <$> labels)) labels.
Proof.
  induction labels as [|x labels [IH1 IH2]]; [by split|].
  cbn [foldr fmap list_fmap]. split; [lia|].
  apply Forall_cons. split; [lia|].
  eapply Forall_impl; [exact IH2|]. cbn beta. intros y Hy. lia.
Qed.

(** On identifiers whose absolute values add up to at most [2^24] the
    model of the float32 sum is the sum of the integers: nothing is
    rounded, in any order of the additions. *)
Lemma float_sum_exact (labels : list Z) :
  foldr Z.add 0 (Z.abs <$> labels) ≤ 2 ^ 24 →
  float_sum labels = foldr Z.add 0 labels.
Proof.
  intros Hsmall. destruct (abs_sum_bounds labels) as [Hsum Hall].
  unfold float_sum.
  assert (round32 <$> labels = labels) as ->.
  { clear Hsum. induction Hall as [|x l Hx Hall IH]; [done|].
    cbn [fmap list_fmap]. f_equal; [apply round32_small; lia | exact IH]. }
  apply round32_small. lia.
Qed.

Lemma entry_stats_update_row p r sum t :
  (p ≤ 1)%nat → (r < length t)%nat → six_columns t →
  entry (stats_update p r sum t) r (0 + p * 2) = sum ∧
  entry (stats_update p r sum t) r (1 + p * 2)
  = fadd (entry t r (1 + p * 2)) 1.
Proof.
  intros Hp Hr Hsix. unfold stats_update. cbv zeta.
  assert (Hsix1 : six_columns (set_entry t r (0 + p * 2) sum))
    by by apply six_columns_set_entry.
  assert (Hr1 : (r < length (set_entry t r (0 + p * 2) sum))%nat)
    by by rewrite length_set_entry.
  split.
  - rewrite entry_set_entry_ne by (right; lia).
    apply entry_set_entry_eq; [done|]. rewrite row_length by done. lia.
  - rewrite entry_set_entry_eq; [|done|rewrite row_length by done; lia].
    by rewrite entry_set_entry_ne by (right; lia).
Qed.

(** The two columns of [p] after a completed run of the inner loop: the
    count column has grown by the number of groups sent to the row, as far
    as a float32 count grows, and the total column holds the sum of the
    identifiers of the last of them. *)
Lemma for_each_stats_columns p index t t' i :
  (p ≤ 1)%nat → six_columns t → (i < length t)%nat →
  0 ≤ entry t i (1 + p * 2) ≤ 2 ^ 24 →
  for_each (Dataset.stats_body p) t index = inr t' →
  entry t' i (1 + p * 2)
  = Z.min (entry t i (1 + p * 2) + len (filter (hits (length t) p i) index))
          (2 ^ 24) ∧
  entry t' i (0 + p * 2)
  = last_group_sum (length t) p i index (entry t i (0 + p * 2)).
Proof.
  intros Hp. revert t. induction index as [|[prefix labels] index IH];
    intros t Hsix Hi Hc.
  - intros [= <-]. unfold last_group_sum, len. cbn [filter list_filter length last].
    split; [lia | done].
  - cbn [for_each]. rewrite stats_body_spec.
    destruct (norm_index (length t) (key_at prefix p)) as [e|r] eqn:Hr;
      cbn [rbind]; [done|].
    intros Hrun.
    pose proof (norm_index_inr _ _ _ Hr) as Hrlt.
    assert (Hc' : 0 ≤ entry (stats_update p r (float_sum labels) t) i (1 + p * 2)
                    ≤ 2 ^ 24).
    { destruct (decide (r = i)) as [->|Hne].
      - destruct (entry_stats_update_row p i (float_sum labels) t Hp Hi Hsix)
          as [_ H1].
        rewrite H1, fadd_one by done. lia.
      - by rewrite entry_stats_update_ne by (left; done). }
    destruct (IH (stats_update p r (float_sum labels) t)) as [Hcount Htotal];
      [by apply six_columns_stats_update
      |by rewrite length_stats_update | done | done |].
    rewrite length_stats_update in Hcount, Htotal.
    rewrite Hcount, Htotal. unfold last_group_sum.
    destruct (decide (r = i)) as [->|Hne].
    + destruct (entry_stats_update_row p i (float_sum labels) t Hp Hi Hsix)
        as [H0 H1].
      rewrite H0, H1, fadd_one, (filter_cons_True _ (prefix, labels)) by done.
      split.
      * unfold len. cbn [length]. lia.
      * rewrite last_cons. by destruct (last _).
    + rewrite !entry_stats_update_ne by (left; done).
      rewrite (filter_cons_False _ (prefix, labels)); [done|].
      unfold hits. cbn [fst]. rewrite Hr. by intros [= ->].
Qed.

(** The statistics table the code computes, column by column: the count
    columns hold the number of groups of the relation, up to the [2^24]
    where a float32 count stops growing, the total columns the sum of the
    identifiers of its last group. *)
Lemma filled_stats_columns num_relations train t i :
  filled_stats num_relations train = inr t → (i < num_relations)%nat →
  entry t i 3
  = Z.min (len (filter (hits num_relations 1 i) (sp_index train))) (2 ^ 24) ∧
  entry t i 2 = last_group_sum num_relations 1 i (sp_index train) 0 ∧
  entry t i 1
  = Z.min (len (filter (hits num_relations 0 i) (po_index train))) (2 ^ 24) ∧
  entry t i 0 = last_group_sum num_relations 0 i (po_index train) 0.
Proof.
  unfold filled_stats.
  destruct (for_each (Dataset.stats_body 1) _ _) as [e|t1] eqn:Hsp; [done|].
  cbn [rbind]. intros Hpo Hi.
  destruct (for_each_stats_inr _ _ _ _ Hsp) as (_ & Hl1 & Hs1 & He1).
  destruct (for_each_stats_inr _ _ _ _ Hpo) as (_ & _ & _ & He0).
  rewrite length_torch_zeros in Hl1.
  assert (Hz1 : 0 ≤ entry (torch_zeros num_relations 6) i (1 + 1 * 2) ≤ 2 ^ 24)
    by (rewrite entry_zeros by (cbn; lia); lia).
  assert (Hz0 : 0 ≤ entry t1 i (1 + 0 * 2) ≤ 2 ^ 24).
  { cbn [Nat.add Nat.mul].
    rewrite (He1 i 1%nat), entry_zeros by first [lia | left; cbn; lia]. lia. }
  destruct (for_each_stats_columns 1 _ _ _ i ltac:(lia) (six_columns_zeros _)
              ltac:(by rewrite length_torch_zeros) Hz1 Hsp) as [Hc1 Ht1].
  destruct (for_each_stats_columns 0 _ _ _ i ltac:(lia)
              (Hs1 (six_columns_zeros _)) ltac:(lia) Hz0 Hpo) as [Hc0 Ht0].
  rewrite length_torch_zeros in Hc1, Ht1. rewrite Hl1 in Hc0, Ht0.
  cbn [Nat.add Nat.mul] in Hc1, Ht1, Hc0, Ht0.
  rewrite !entry_zeros in Hc1, Ht1 by lia.
  rewrite (He1 i 1%nat), entry_zeros in Hc0 by first [lia | left; cbn; lia].
  rewrite (He1 i 0%nat), entry_zeros in Ht0 by first [lia | left; cbn; lia].
  split_and!.
  - rewrite (He0 i 3%nat) by (left; cbn; lia). rewrite Hc1. lia.
  - by rewrite (He0 i 2%nat) by (left; cbn; lia).
  - rewrite Hc0. lia.
  - done.
Qed.

Lemma filter_ext_in {A} (P Q : A → Prop)
    `{!∀ x, Decision (P x), !∀ x, Decision (Q x)} (l : list A) :
  (∀ x, x ∈ l → P x ↔ Q x) → filter P l = filter Q l.
Proof.
  induction l as [|x l IH]; intros Hext; [done|].
  assert (filter P l = filter Q l) as Hl.
  { apply IH. intros y Hy. apply Hext. by right. }
  destruct (decide (P x)) as [HP|HP].
  - rewrite !filter_cons_True; [by f_equal | by apply Hext; [left|] | done].
  - rewrite !filter_cons_False; [done | | done].
    intros HQ. apply HP. apply Hext; [left | done].
Qed.

(** The part of the statistics that the code gets right: when the training
    predicates are in range, the count column of each side holds the number
    of groups of the relation, as the specification words it, as long as
    there are at most [2^24] of them; a float32 count goes no further. *)
Lemma filled_stats_group_counts num_relations train t i :
  (∀ s p o, (s, p, o) ∈ train → 0 ≤ p < Z.of_nat num_relations) →
  filled_stats num_relations train = inr t → (i < num_relations)%nat →
  entry t i 3 = Z.min (spec_groups 1 (sp_index train) (Z.of_nat i)) (2 ^ 24) ∧
  entry t i 1 = Z.min (spec_groups 0 (po_index train) (Z.of_nat i)) (2 ^ 24).
Proof.
  intros Hrange Ht Hi.
  destruct (filled_stats_columns _ _ _ i Ht Hi) as (H3 & _ & H1 & _).
  rewrite H3, H1. unfold spec_groups.
  split; do 2 f_equal; apply filter_ext_in.
  - intros [[s p] l] Hin. destruct (sp_index_key _ _ _ _ Hin) as [o Ho].
    pose proof (Hrange s p o Ho). unfold hits. cbn [fst key_at snd].
    rewrite norm_index_in_range by done. split; [intros [= <-]|intros ->].
    + lia.
    + f_equal. lia.
  - intros [[p o] l] Hin. destruct (po_index_key _ _ _ _ Hin) as [s Hs].
    pose proof (Hrange s p o Hs). unfold hits. cbn [fst key_at snd].
    rewrite norm_index_in_range by done. split; [intros [= <-]|intros ->].
    + lia.
    + f_equal. lia.
Qed.

Lemma format_label_of_bool (b1 b2 : bool) :
  Dataset.format_label (float_of_bool b1) (float_of_bool b2)
  = (if b1 then "M" else "1") +:+ "-" +:+ (if b2 then "N" else "1").
Proof. by destruct b1, b2. Qed.

Section construction.
Variables (config : list string)
  (num_entities : nat) (entities : list (list string))
  (num_relations : nat) (relations : list (list string))
  (train : list triple) (train_meta : list (list string))
  (valid : list triple) (valid_meta : list (list string))
  (test : list triple) (test_meta : list (list string)).

Lemma construct_inr d :
  Dataset.__init__ config num_entities entities num_relations relations
    train train_meta valid valid_meta test test_meta = inr d →
  ∃ t, filled_stats num_relations train = inr t ∧
       (Dataset.relation_stats
      (fresh config num_entities entities num_relations relations
         train train_meta valid valid_meta test test_meta)).1 = inr (Dataset.threshold_stats t) ∧
       Dataset.label_relations (Dataset.threshold_stats t) relations
       = inr (Dataset.relation_types d).
Proof.
  rewrite init_classify. unfold classify.
  destruct (filled_stats num_relations train) as [e|t] eqn:Ht; [done|].
  cbn [rbind].
  destruct (Dataset.label_relations _ _) as [e|types] eqn:Hl; [done|].
  intros [= <-]. exists t. split_and!; [done| |done].
  rewrite relation_stats_fresh by done.
  cbn [fst fresh Dataset.num_relations Dataset.train]. by rewrite Ht.
Qed.

(** C2, as the code has it. In a constructed dataset the relation type
    table has an entry exactly for the positions of [relations], and each
    label is one of the four strings "1-1", "1-N", "M-1", "M-N". The label
    is formed as subject side, dash, object side, where the subject side is
    "M" iff the float32 quotient of columns 0 and 1 of the statistics table
    (po side) exceeds 1.5 and "1" otherwise, and the object side is "N" iff
    the float32 quotient of columns 2 and 3 (sp side) exceeds 1.5 and "1"
    otherwise. This last part is about the totals that line 211 stores, and
    is stated for the training splits on which torch's float32 sum is the
    same in every order of the additions: each completion list of the two
    training indexes has a single identifier, or identifiers whose absolute
    values add up to at most [2^24]. *)
Theorem relation_type_labels d :
  Dataset.__init__ config num_entities entities num_relations relations
    train train_meta valid valid_meta test test_meta = inr d →
  (∀ i, is_Some (Dataset.relation_types d !! i) ↔ (i < length relations)%nat) ∧
  (∀ i label, Dataset.relation_types d !! i = Some label →
              label ∈ ["1-1"; "1-N"; "M-1"; "M-N"]) ∧
  ((∀ k labels, (k, labels) ∈ sp_index train ∨ (k, labels) ∈ po_index train →
                exact_float_sum labels) →
   ∃ stats,
     (Dataset.relation_stats
       (fresh config num_entities entities num_relations relations
          train train_meta valid valid_meta test test_meta)).1 = inr stats ∧
     ∀ i, Dataset.relation_types d !! i
          = if decide (i < length relations)%nat then
              Some ((if gt_1_5 (fdiv (entry stats i 0) (entry stats i 1))
                     then "M" else "1") +:+ "-" +:+
                    (if gt_1_5 (fdiv (entry stats i 2) (entry stats i 3))
                     then "N" else "1"))
            else None).
Proof.
  intros (t & Ht & Hstats & Hlabels)%construct_inr.
  rewrite label_relations_unfold in Hlabels.
  destruct (label_loop_inr _ _ _ _ _ Hlabels) as [Hlen Hm].
  rewrite length_threshold_stats in Hlen.
  destruct (filled_stats_inr _ _ _ Ht) as (Hl & Hsix & _).
  assert (Hentry : ∀ i, Dataset.relation_types d !! i
            = if decide (i < length relations)%nat then
                Some ((if gt_1_5 (fdiv (entry (Dataset.threshold_stats t) i 0)
                                       (entry (Dataset.threshold_stats t) i 1))
                       then "M" else "1") +:+ "-" +:+
                      (if gt_1_5 (fdiv (entry (Dataset.threshold_stats t) i 2)
                                       (entry (Dataset.threshold_stats t) i 3))
                       then "N" else "1"))
              else None).
  { intros i. rewrite Hm. destruct (decide (i < length relations)%nat) as [Hi|Hi].
    - rewrite decide_True by lia.
      assert (i < length t)%nat as Hit.
      { destruct Hlen as [Hnil|Hlen]; [rewrite Hnil in Hi; simpl in Hi|]; lia. }
      destruct (entry_threshold_stats t i Hit Hsix) as (H4 & H5 & Hsame).
      rewrite H4, H5, !Hsame by lia. by rewrite format_label_of_bool.
    - rewrite decide_False by lia. apply lookup_empty. }
  split_and!.
  - intros i. rewrite Hentry. case_decide.
    + split; [done | by eexists].
    + split; [by intros [? [=]] | done].
  - intros i label. rewrite Hentry. case_decide; [|done].
    intros [= <-].
    destruct (gt_1_5 _), (gt_1_5 _); cbn;
      repeat first [apply list_elem_of_here | apply list_elem_of_further].
  - intros _. by exists (Dataset.threshold_stats t).
Qed.

(** C9. When every training predicate is below [num_relations] and
    [relations] has at most [num_relations] entries, the constructor
    returns a dataset, no error is raised, and for every relation [i]: if
    no key of the sp index has predicate [i] then the object side of its
    label is "1"; if no key of the po index has predicate [i] then the
    subject side is "1"; and if no training triple has predicate [i] the
    label is "1-1". The undefined average [0/0] does not exceed 1.5. *)
Theorem untrained_relation_is_1_1 :
  (∀ s p o, (s, p, o) ∈ train → 0 ≤ p < Z.of_nat num_relations) →
  (length relations ≤ num_relations)%nat →
  gt_1_5 (fdiv 0 0) = false ∧
  ∃ d, Dataset.__init__ config num_entities entities num_relations relations
    train train_meta valid valid_meta test test_meta = inr d ∧
    ∀ i, (i < length relations)%nat →
      ((∀ s p l, ((s, p), l) ∈ sp_index train → p ≠ Z.of_nat i) →
       ∃ a, Dataset.relation_types d !! i = Some (a +:+ "-1")) ∧
      ((∀ p o l, ((p, o), l) ∈ po_index train → p ≠ Z.of_nat i) →
       ∃ b, Dataset.relation_types d !! i = Some ("1-" +:+ b)) ∧
      ((∀ s p o, (s, p, o) ∈ train → p ≠ Z.of_nat i) →
       Dataset.relation_types d !! i = Some "1-1").
Proof.
  intros Hrange Hrel. split; [done|].
  assert (Hnorm : ∀ s p o, (s, p, o) ∈ train →
            norm_index num_relations p = inr (Z.to_nat p)).
  { intros s p o Hin. apply norm_index_in_range. by apply (Hrange s p o). }
  destruct (filled_stats num_relations train) as [e|t] eqn:Ht.
  { destruct (filled_stats_inl _ _ _ Ht) as [_ (s & p & o & Hin & Hbad)].
    by rewrite (Hnorm s p o Hin) in Hbad. }
  destruct (filled_stats_inr _ _ _ Ht) as (Hl & Hsix & _ & _ & Hzero).
  destruct (label_loop_total (Dataset.threshold_stats t) relations 0 ∅)
    as [types Htypes]; [rewrite length_threshold_stats; lia|].
  destruct (label_loop_inr _ _ _ _ _ Htypes) as [_ Hm].
  rewrite init_classify. unfold classify.
  rewrite Ht. cbn [rbind]. rewrite label_relations_unfold, Htypes.
  eexists. split; [done|]. cbn [Dataset.relation_types].
  intros i Hi.
  assert (Hit : (i < length t)%nat) by lia.
  destruct (entry_threshold_stats t i Hit Hsix) as (H4 & H5 & _).
  assert (Hlabel : types !! i
            = Some (Dataset.format_label (entry (Dataset.threshold_stats t) i 4)
                      (entry (Dataset.threshold_stats t) i 5))).
  { rewrite Hm. by rewrite decide_True by lia. }
  assert (Hsp : (∀ s p l, ((s, p), l) ∈ sp_index train → p ≠ Z.of_nat i) →
                entry (Dataset.threshold_stats t) i 5 = 0).
  { intros Hmiss. destruct (Hzero i ltac:(lia)) as [Hz _].
    destruct Hz as [H2 H3]; [|by rewrite H5, H2, H3].
    intros s p l Hin. destruct (sp_index_key _ _ _ _ Hin) as [o Ho].
    rewrite (Hnorm s p o Ho). intros [= <-].
    apply (Hmiss s p l Hin). pose proof (Hrange s p o Ho). lia. }
  assert (Hpo : (∀ p o l, ((p, o), l) ∈ po_index train → p ≠ Z.of_nat i) →
                entry (Dataset.threshold_stats t) i 4 = 0).
  { intros Hmiss. destruct (Hzero i ltac:(lia)) as [_ Hz].
    destruct Hz as [H0 H1]; [|by rewrite H4, H0, H1].
    intros p o l Hin. destruct (po_index_key _ _ _ _ Hin) as [s Hs].
    rewrite (Hnorm s p o Hs). intros [= <-].
    apply (Hmiss p o l Hin). pose proof (Hrange s p o Hs). lia. }
  split_and!.
  - intros Hmiss. rewrite Hlabel, (Hsp Hmiss). by eexists.
  - intros Hmiss. rewrite Hlabel, (Hpo Hmiss). by eexists.
  - intros Hmiss. rewrite Hlabel, Hsp, Hpo; [done| |].
    + intros p o l Hin. destruct (po_index_key _ _ _ _ Hin) as [s Hs].
      by apply (Hmiss s p o).
    + intros s p l Hin. destruct (sp_index_key _ _ _ _ Hin) as [o Ho].
      by apply (Hmiss s p o).
Qed.

(** C10, as the code has it. A training triple whose predicate is
    [num_relations] or more makes the constructor fail, with the
    [IndexError] of the statistics table. *)
Theorem train_predicate_out_of_range_raises :
  (∃ s p o, (s, p, o) ∈ train ∧ Z.of_nat num_relations ≤ p) →
  Dataset.__init__ config num_entities entities num_relations relations
    train train_meta valid valid_meta test test_meta
  = inl IndexError.
Proof.
  intros (s & p & o & Hin & Hp).
  rewrite init_classify. unfold classify.
  destruct (filled_stats num_relations train) as [e|t] eqn:Ht.
  - by destruct (filled_stats_inl _ _ _ Ht) as [-> _].
  - destruct (filled_stats_inr _ _ _ Ht) as (_ & _ & Hsp & _).
    destruct (sp_index_has_key _ _ _ _ Hin) as [l Hl].
    destruct (Hsp s p l Hl) as [r Hr].
    by rewrite norm_index_too_large in Hr.
Qed.
End construction.

Lemma relation_type_labels_witness :
  ∃ d,
    (Dataset.__init__ [] 3 [[]; []; []] 1 [[]]
       [(1, 0, 0); (2, 0, 0)] [[]; []] [] [] [] [] = inr d ∧
     (∀ k labels, (k, labels) ∈ sp_index [(1, 0, 0); (2, 0, 0)] ∨
                  (k, labels) ∈ po_index [(1, 0, 0); (2, 0, 0)] →
                  exact_float_sum labels)) ∧
    (∀ i, is_Some (Dataset.relation_types d !! i)
          ↔ (i < length [[] : list string])%nat) ∧
    (∀ i label, Dataset.relation_types d !! i = Some label →
                label ∈ ["1-1"; "1-N"; "M-1"; "M-N"]) ∧
    ∃ stats,
      (Dataset.relation_stats
         (fresh [] 3 [[]; []; []] 1 [[]]
            [(1, 0, 0); (2, 0, 0)] [[]; []] [] [] [] [])).1 = inr stats ∧
      ∀ i, Dataset.relation_types d !! i
           = if decide (i < length [[] : list string])%nat then
               Some ((if gt_1_5 (fdiv (entry stats i 0) (entry stats i 1))
                      then "M" else "1") +:+ "-" +:+
                     (if gt_1_5 (fdiv (entry stats i 2) (entry stats i 3))
                      then "N" else "1"))
             else None.
Proof.
  assert (H : ∃ d, Dataset.__init__ [] 3 [[]; []; []] 1 [[]]
                     [(1, 0, 0); (2, 0, 0)] [[]; []] [] [] [] [] = inr d)
    by (vm_compute; eexists; reflexivity).
  destruct H as [d H]. exists d.
  assert (Hexact : ∀ k labels,
            (k, labels) ∈ sp_index [(1, 0, 0); (2, 0, 0)] ∨
            (k, labels) ∈ po_index [(1, 0, 0); (2, 0, 0)] →
            exact_float_sum labels).
  { intros k labels Hin.
    assert (Hin' : (k, labels) ∈ [((1, 0), [0]); ((2, 0), [0]); ((0, 0), [1; 2])]).
    { destruct Hin as [Hin|Hin].
      - apply (elem_of_app [((1, 0), [0]); ((2, 0), [0])] [((0, 0), [1; 2])]).
        left. exact Hin.
      - apply (elem_of_app [((1, 0), [0]); ((2, 0), [0])] [((0, 0), [1; 2])]).
        right. exact Hin. }
    repeat (apply elem_of_cons in Hin' as [[= -> ->]|Hin'];
            [unfold exact_float_sum; simpl; lia|]).
    by apply elem_of_nil in Hin'. }
  split; [by split|].
  destruct (relation_type_labels [] 3 [[]; []; []] 1 [[]]
              [(1, 0, 0); (2, 0, 0)] [[]; []] [] [] [] [] d H)
    as (Hdom & Hfour & Hsides).
  split_and!; [exact Hdom | exact Hfour | exact (Hsides Hexact)].
Defined.

(** C2, counterexample. Two subjects for one object under relation 0: the
    label stored is "M-1", which is none of "1-1", "1-N", "N-1", "N-N". *)
Lemma relation_type_label_M_1 :
  ∃ d,
    Dataset.__init__ [] 3 [[]; []; []] 1 [[]]
      [(1, 0, 0); (2, 0, 0)] [[]; []] [] [] [] [] = inr d ∧
    Dataset.relation_types d !! 0%nat = Some "M-1" ∧
    "M-1" ∉ ["1-1"; "1-N"; "N-1"; "N-N"].
Proof.
  eexists. split_and!; [vm_compute; reflexivity..|].
  intros Hin. repeat (apply elem_of_cons in Hin as [Hin|Hin]; [discriminate|]).
  by apply elem_of_nil in Hin.
Qed.

Lemma untrained_relation_is_1_1_witness :
  ((∀ s p o, (s, p, o) ∈ [(0, 0, 1)] → 0 ≤ p < Z.of_nat 2) ∧
   (length [[]; [] : list string] ≤ 2)%nat) ∧
  ∃ d,
    Dataset.__init__ [] 2 [[]; []] 2 [[]; []] [(0, 0, 1)] [[]] [] [] [] [] = inr d ∧
    Dataset.relation_types d !! 1%nat = Some "1-1".
Proof.
  assert (H1 : ∀ s p o, (s, p, o) ∈ [(0, 0, 1)] → 0 ≤ p < Z.of_nat 2).
  { intros s p o [= -> -> ->]%list_elem_of_singleton. simpl. lia. }
  assert (H2 : (length [[]; [] : list string] ≤ 2)%nat) by (simpl; lia).
  split; [by split|].
  destruct (untrained_relation_is_1_1 [] 2 [[]; []] 2 [[]; []] [(0, 0, 1)] [[]]
              [] [] [] [] H1 H2) as [_ (d & Hd & Hlabels)].
  exists d. split; [exact Hd|].
  destruct (Hlabels 1%nat ltac:(simpl; lia)) as (_ & _ & Habsent).
  apply Habsent. intros s p o [= -> -> ->]%list_elem_of_singleton. done.
Defined.

Lemma train_predicate_out_of_range_raises_witness :
  (∃ s p o, (s, p, o) ∈ [(0, 1, 0)] ∧ Z.of_nat 1 ≤ p) ∧
  Dataset.__init__ [] 1 [[]] 1 [[]] [(0, 1, 0)] [[]] [] [] [] [] = inl IndexError.
Proof.
  assert (H : ∃ s p o, (s, p, o) ∈ [(0, 1, 0)] ∧ Z.of_nat 1 ≤ p).
  { exists 0, 1, 0. split; [apply list_elem_of_here | simpl; lia]. }
  split; [exact H|].
  exact (train_predicate_out_of_range_raises [] 1 [[]] 1 [[]] [(0, 1, 0)] [[]]
           [] [] [] [] H).
Defined.

(** C10, counterexample. With one entity and one relation declared, a
    training triple with subject 5 and object 7 and a validation triple
    with predicate 3 are accepted: the constructor returns a dataset, and
    the index accessor serves both triples without any error. *)
Lemma out_of_range_identifiers_accepted :
  ∃ d d',
    Dataset.__init__ [] 1 [[]] 1 [[]] [(5, 0, 7)] [[]] [(0, 3, 0)] [[]] [] [] = inr d ∧
    Dataset.num_entities d = 1%nat ∧ Dataset.num_relations d = 1%nat ∧
    Dataset.index_1toN "train" "sp" d = (inr (Some [((5, 0), [7])]), d) ∧
    Dataset.index_1toN "valid" "sp" d = (inr (Some [((0, 3), [0])]), d').
Proof.
  do 2 eexists. split_and!; [vm_compute; reflexivity..].
Qed.

(** C1. Evaluation of the code on the single training triple [(0, 0, 5)]:
    the sp index has the one key [(0, 0)] with the one completion [5], so
    the total of completion-list lengths for relation 0 is 1 and there is 1
    group; the code stores 5 (the sum of the completions themselves) in the
    total column, and labels the relation "1-N". *)
Theorem relation_stats_total_is_sum_of_identifiers :
  ∃ d,
    Dataset.__init__ [] 6 (replicate 6 []) 1 [[]] [(0, 0, 5)] [[]] [] [] [] []
    = inr d ∧
    sp_index (Dataset.train d) = [((0, 0), [5])] ∧
    spec_total 1 (sp_index (Dataset.train d)) 0 = 1 ∧
    spec_groups 1 (sp_index (Dataset.train d)) 0 = 1 ∧
    (Dataset.relation_stats
       (fresh [] 6 (replicate 6 []) 1 [[]] [(0, 0, 5)] [[]] [] [] [] [])).1
    = inr [[0; 1; 5; 1; 0; 1]] ∧
    Dataset.relation_types d !! 0%nat = Some "1-N".
Proof.
  eexists. split_and!; vm_compute; reflexivity.
Qed.

(** The scenario of three training triples [(0,0,1)], [(0,0,2)], [(1,0,2)]:
    three completions in two groups on either side, while the code keeps in
    each total column the sum of the identifiers of the last group only. *)
Example relation_stats_total_is_last_group :
  let train := [(0, 0, 1); (0, 0, 2); (1, 0, 2)] in
  sp_index train = [((0, 0), [1; 2]); ((1, 0), [2])] ∧
  po_index train = [((0, 1), [0]); ((0, 2), [0; 1])] ∧
  spec_total 1 (sp_index train) 0 = 3 ∧ spec_groups 1 (sp_index train) 0 = 2 ∧
  spec_total 0 (po_index train) 0 = 3 ∧ spec_groups 0 (po_index train) 0 = 2 ∧
  (Dataset.relation_stats
     (fresh [] 3 [[]; []; []] 1 [[]] train [[]; []; []] [] [] [] [])).1
  = inr [[1; 2; 2; 2; 0; 0]].
Proof. cbv zeta. split_and!; vm_compute; reflexivity. Qed.

(** * Further properties of the grouped index builder *)

Section first_occurrences.
Context {A : Type} `{EqDecision A}.
Implicit Types (x : A) (l : list A).

Lemma elem_of_first_occurrences x l : x ∈ first_occurrences l ↔ x ∈ l.
Proof.
  induction l as [|y l IH]; [done|]. cbn [first_occurrences].
  rewrite !elem_of_cons, list_elem_of_filter, IH.
  destruct (decide (x = y)) as [->|Hne]; [by split; left|].
  split; [intros [?|[_ ?]]; [done | by right] | intros [?|?]; [done | by right]].
Qed.

Lemma first_occurrences_NoDup l : NoDup (first_occurrences l).
Proof.
  induction l as [|y l IH]; [apply NoDup_nil_2|]. cbn [first_occurrences].
  apply NoDup_cons. split.
  - rewrite list_elem_of_filter. by intros [? _].
  - by apply NoDup_filter.
Qed.

Lemma first_occurrences_snoc l x :
  first_occurrences (l ++ [x])
  = if decide (x ∈ l) then first_occurrences l else first_occurrences l ++ [x].
Proof.
  induction l as [|y l IH].
  - cbn. rewrite decide_False; [done | apply not_elem_of_nil].
  - cbn [app first_occurrences]. rewrite IH.
    destruct (decide (x ∈ l)) as [Hin|Hin].
    + rewrite decide_True; [done | by right].
    + rewrite filter_app, filter_cons, filter_nil.
      destruct (decide (x ≠ y)) as [Hne|Heq],
               (decide (x ∈ y :: l)) as [Hin'|Hin'].
      * apply elem_of_cons in Hin' as [?|?]; done.
      * done.
      * by rewrite app_nil_r.
      * apply dec_stable in Heq as ->. exfalso. apply Hin'. left.
Qed.
End first_occurrences.

Lemma raw_groups_first_occurrences rows :
  (raw_groups rows).*1 = first_occurrences rows.*1.
Proof.
  induction rows as [|[k v] rows IH] using rev_ind; [done|].
  rewrite raw_groups_snoc, dict_append_keys, fmap_app, IH.
  cbn [fmap list_fmap fst]. rewrite first_occurrences_snoc.
  destruct (decide (k ∈ rows.*1)) as [Hin|Hin].
  - rewrite decide_True; [done | by apply elem_of_first_occurrences].
  - rewrite decide_False; [done | by rewrite elem_of_first_occurrences].
Qed.

(** X1. The keys of the index that [group_by_sp_po] returns are pairwise
    distinct and come in the order in which they first occur in the rows. *)
Theorem group_by_sp_po_keys_in_first_seen_order
    (sp_po_list : list key) (o_s_list : list Z) :
  (Dataset.group_by_sp_po sp_po_list o_s_list).*1
  = first_occurrences (zip sp_po_list o_s_list).*1 ∧
  NoDup (Dataset.group_by_sp_po sp_po_list o_s_list).*1.
Proof.
  split; [|apply group_by_sp_po_NoDup].
  rewrite group_by_sp_po_unfold, dict_keys_fmap.
  apply raw_groups_first_occurrences.
Qed.

Lemma completions_nil_iff k rows : completions k rows = [] ↔ k ∉ rows.*1.
Proof.
  split.
  - intros Hnil [[k' v] [-> Hin]]%list_elem_of_fmap. cbn in *.
    apply elem_of_completions in Hin. rewrite Hnil in Hin.
    by apply elem_of_nil in Hin.
  - intros Hnot. apply elem_of_nil_inv. intros v Hv%elem_of_completions.
    apply Hnot. by apply (list_elem_of_fmap_2 fst _ (k, v)).
Qed.

(** X2. Looking a key up in the built index: the key is missing exactly
    when no row carries it, and a key that is present never has an empty
    completion list. *)
Theorem group_by_sp_po_missing_key
    (sp_po_list : list key) (o_s_list : list Z) (k : key) :
  (dict_get k (Dataset.group_by_sp_po sp_po_list o_s_list) = None ↔
     k ∉ (zip sp_po_list o_s_list).*1) ∧
  (∀ l, dict_get k (Dataset.group_by_sp_po sp_po_list o_s_list) = Some l →
        l ≠ []).
Proof.
  rewrite group_by_sp_po_get, <-completions_nil_iff.
  destruct (completions k (zip sp_po_list o_s_list)) as [|v l] eqn:Hc.
  - split; [done|]. by intros l [=].
  - split; [done|]. intros l' [= <-] Hnil.
    apply (f_equal length) in Hnil.
    pose proof (Permutation_length (sorted_Permutation (v :: l))) as Hlen.
    rewrite Hnil in Hlen. done.
Qed.

Lemma dict_append_values k v d :
  concat (dict_append k v d).*2 ≡ₚ v :: concat d.*2.
Proof.
  induction d as [|[k' vs] d IH]; [done|]. cbn [dict_append].
  destruct (decide (k' = k)) as [->|Hne]; cbn [fmap list_fmap snd concat].
  - rewrite <-(assoc_L (++)). cbn [app].
    by rewrite <-Permutation_middle.
  - change (list_fmap _ _ snd ?l) with (l.*2). rewrite IH.
    by rewrite <-Permutation_middle.
Qed.

Lemma raw_groups_values rows : concat (raw_groups rows).*2 ≡ₚ rows.*2.
Proof.
  induction rows as [|[k v] rows IH] using rev_ind; [done|].
  rewrite raw_groups_snoc, dict_append_values, IH, fmap_app. cbn.
  by rewrite Permutation_app_comm.
Qed.

Lemma concat_sorted_values (d : list (key * list Z)) :
  concat ((λ '(k, l), (k, sorted l)) <$> d).*2 ≡ₚ concat d.*2.
Proof.
  induction d as [|[k l] d IH]; [done|]. cbn [fmap list_fmap snd concat].
  change (list_fmap _ _ snd ?l) with (l.*2).
  change (list_fmap _ _ ?f d) with (f <$> d).
  by rewrite IH, sorted_Permutation.
Qed.

(** X3. The built index holds every row exactly once: the completion
    lists, taken together, are a rearrangement of the value column, so
    their total length is the number of rows. *)
Theorem group_by_sp_po_partitions_rows
    (sp_po_list : list key) (o_s_list : list Z) :
  concat (Dataset.group_by_sp_po sp_po_list o_s_list).*2
  ≡ₚ (zip sp_po_list o_s_list).*2 ∧
  length (concat (Dataset.group_by_sp_po sp_po_list o_s_list).*2)
  = length (zip sp_po_list o_s_list).
Proof.
  assert (Hperm : concat (Dataset.group_by_sp_po sp_po_list o_s_list).*2
                  ≡ₚ (zip sp_po_list o_s_list).*2).
  { rewrite group_by_sp_po_unfold, concat_sorted_values.
    apply raw_groups_values. }
  split; [done|]. by rewrite Hperm, length_fmap.
Qed.

Lemma sorted_Permutation_eq l1 l2 : l1 ≡ₚ l2 → sorted l1 = sorted l2.
Proof.
  intros Hperm. apply (Sorted_unique Z.le); [apply sorted_Sorted..|].
  by rewrite !sorted_Permutation.
Qed.

Lemma group_by_sp_po_get_Permutation ks1 vs1 ks2 vs2 k :
  zip ks1 vs1 ≡ₚ zip ks2 vs2 →
  dict_get k (Dataset.group_by_sp_po ks1 vs1)
  = dict_get k (Dataset.group_by_sp_po ks2 vs2).
Proof.
  intros Hperm. rewrite !group_by_sp_po_get.
  assert (Hc : completions k (zip ks1 vs1) ≡ₚ completions k (zip ks2 vs2))
    by (unfold completions; by rewrite Hperm).
  pose proof (sorted_Permutation_eq _ _ Hc) as Hs.
  pose proof (Permutation_length Hc) as Hlen.
  destruct (completions k (zip ks1 vs1)), (completions k (zip ks2 vs2));
    try done. by rewrite Hs.
Qed.

(** X4. The completion lists do not depend on the order of the rows: two
    triple arrays that are rearrangements of each other give, for every
    key, the same lookup in the sp index and the same lookup in the po
    index (only the order of the keys may differ). *)
Theorem grouped_index_lookup_ignores_row_order
    (triples1 triples2 : list triple) (k : key) :
  triples1 ≡ₚ triples2 →
  dict_get k (sp_index triples1) = dict_get k (sp_index triples2) ∧
  dict_get k (po_index triples1) = dict_get k (po_index triples2).
Proof.
  intros Hperm. split; apply group_by_sp_po_get_Permutation.
  - fold (rows_of (0, 1)%nat 2 triples1). fold (rows_of (0, 1)%nat 2 triples2).
    by rewrite !rows_of_fmap, Hperm.
  - fold (rows_of (1, 2)%nat 0 triples1). fold (rows_of (1, 2)%nat 0 triples2).
    by rewrite !rows_of_fmap, Hperm.
Qed.

Lemma grouped_index_lookup_ignores_row_order_witness :
  [(0, 0, 2); (0, 0, 1)] ≡ₚ [(0, 0, 1); (0, 0, 2)] ∧
  dict_get (0, 0) (sp_index [(0, 0, 2); (0, 0, 1)])
  = dict_get (0, 0) (sp_index [(0, 0, 1); (0, 0, 2)]) ∧
  dict_get (0, 0) (po_index [(0, 0, 2); (0, 0, 1)])
  = dict_get (0, 0) (po_index [(0, 0, 1); (0, 0, 2)]).
Proof.
  assert (H : [(0, 0, 2); (0, 0, 1)] ≡ₚ@{triple} [(0, 0, 1); (0, 0, 2)])
    by apply perm_swap.
  split; [exact H|].
  exact (grouped_index_lookup_ignores_row_order _ _ (0, 0) H).
Defined.

(** * Further properties of the index cache *)

(** A call of [index_1toN] that returns has been given a valid split and a
    valid direction. *)
Lemma index_1toN_inr_valid split sp_po self r self' :
  Dataset.index_1toN split sp_po self = (inr r, self') →
  ∃ triples cols,
    split_triples split self = Some triples ∧ direction_cols sp_po = Some cols.
Proof.
  unfold Dataset.index_1toN, split_triples, direction_cols.
  repeat case_decide; intros [=]; eauto.
Qed.

Lemma split_triples_after_build split split' sp_po index self :
  split_triples split (after_build split' sp_po index self)
  = split_triples split self.
Proof. done. Qed.

(** X5. For a split with at least one triple, [index_1toN] is idempotent:
    whatever the first call found in the cache, a second call with the
    same arguments returns the same result and leaves the dataset exactly
    as the first call left it (no build, no log line). *)
Theorem index_1toN_second_call_changes_nothing
    (split sp_po : string) (triples : list triple) (self self' : Dataset.t)
    (r : result (option GroupedIndex)) :
  split_triples split self = Some triples → triples ≠ [] →
  Dataset.index_1toN split sp_po self = (r, self') →
  Dataset.index_1toN split sp_po self' = (r, self').
Proof.
  intros Hsplit Hne Hcall.
  destruct (direction_cols sp_po) as [[cols vc]|] eqn:Hdir.
  - rewrite (index_1toN_valid _ _ _ _ _ _ Hsplit Hdir) in Hcall.
    destruct (Dataset.truthy _) eqn:Htruthy.
    + injection Hcall as <- <-.
      by rewrite (index_1toN_valid _ _ _ _ _ _ Hsplit Hdir), Htruthy.
    + cbv zeta in Hcall. injection Hcall as <- <-.
      rewrite (index_1toN_valid _ _ triples cols vc)
        by (by rewrite ?split_triples_after_build).
      rewrite after_build_indexes, lookup_insert_eq.
      destruct (Dataset.group_by_sp_po _ _) as [|kl index] eqn:Hindex; [|done].
      apply group_by_sp_po_nil in Hindex.
      fold (rows_of cols vc triples) in Hindex.
      rewrite rows_of_fmap in Hindex. by apply fmap_nil_inv in Hindex.
  - assert (Hbad : sp_po ∉ ["sp"; "po"]).
    { unfold direction_cols in Hdir.
      intros Hin. repeat (apply elem_of_cons in Hin as [->|Hin]); [done..|].
      by apply elem_of_nil in Hin. }
    assert (Herr : ∀ d, Dataset.index_1toN split sp_po d = (inl ValueError, d)).
    { intros d. unfold Dataset.index_1toN.
      assert (sp_po ≠ "sp") by (intros ->; apply Hbad; left).
      assert (sp_po ≠ "po") by (intros ->; apply Hbad; right; left).
      repeat case_decide; done. }
    rewrite Herr in Hcall. injection Hcall as <- <-. apply Herr.
Qed.

Lemma index_1toN_second_call_changes_nothing_witness :
  ∃ self' r,
    (split_triples "valid" (fresh [] 3 [] 1 [] [] [] [(0, 0, 1)] [] [] [])
     = Some [(0, 0, 1)] ∧ [(0, 0, 1)] ≠ ([] : list triple) ∧
     Dataset.index_1toN "valid" "po" (fresh [] 3 [] 1 [] [] [] [(0, 0, 1)] [] [] [])
     = (r, self')) ∧
    Dataset.index_1toN "valid" "po" self' = (r, self').
Proof.
  assert (H : ∃ self' r,
    Dataset.index_1toN "valid" "po" (fresh [] 3 [] 1 [] [] [] [(0, 0, 1)] [] [] [])
    = (r, self')) by (vm_compute; do 2 eexists; reflexivity).
  destruct H as (self' & r & H). exists self', r.
  assert (H1 : split_triples "valid" (fresh [] 3 [] 1 [] [] [] [(0, 0, 1)] [] [] [])
               = Some [(0, 0, 1)]) by reflexivity.
  assert (H2 : [(0, 0, 1)] ≠ ([] : list triple)) by discriminate.
  split; [by split_and!|].
  exact (index_1toN_second_call_changes_nothing _ _ _ _ _ _ H1 H2 H).
Defined.

(** X6. What a call of [index_1toN] that returns does and does not do: the
    value returned is a dictionary (never [None]) and is the entry now
    cached under the name of the split and direction; no other cache entry
    changes; the triple arrays, the counts, the metadata and the relation
    type tables are untouched; the log only grows. *)
Theorem index_1toN_frame (split sp_po : string) (self self' : Dataset.t)
    (r : option GroupedIndex) :
  Dataset.index_1toN split sp_po self = (inr r, self') →
  is_Some r ∧
  Dataset.indexes self' !! (split +:+ "_" +:+ sp_po) = r ∧
  (∀ name, name ≠ split +:+ "_" +:+ sp_po →
     Dataset.indexes self' !! name = Dataset.indexes self !! name) ∧
  (Dataset.train self', Dataset.valid self', Dataset.test self')
  = (Dataset.train self, Dataset.valid self, Dataset.test self) ∧
  (Dataset.num_entities self', Dataset.entities self',
   Dataset.num_relations self', Dataset.relations self')
  = (Dataset.num_entities self, Dataset.entities self,
     Dataset.num_relations self, Dataset.relations self) ∧
  (Dataset.train_meta self', Dataset.valid_meta self', Dataset.test_meta self')
  = (Dataset.train_meta self, Dataset.valid_meta self, Dataset.test_meta self) ∧
  (Dataset.relation_types self', Dataset.relations_per_type self')
  = (Dataset.relation_types self, Dataset.relations_per_type self) ∧
  Dataset.config_log self `prefix_of` Dataset.config_log self'.
Proof.
  intros Hcall.
  destruct (index_1toN_inr_valid _ _ _ _ _ Hcall)
    as (triples & [cols vc] & Hsplit & Hdir).
  rewrite (index_1toN_valid _ _ _ _ _ _ Hsplit Hdir) in Hcall.
  destruct (Dataset.truthy _) eqn:Htruthy.
  - injection Hcall as <- <-. split_and!; try done.
    by destruct (Dataset.indexes self !! _).
  - cbv zeta in Hcall. injection Hcall as <- <-. split_and!; try done.
    + by rewrite after_build_indexes, lookup_insert_eq.
    + intros name Hname. by rewrite after_build_indexes, lookup_insert_ne.
    + by apply prefix_app_r.
Qed.

Lemma index_1toN_frame_witness :
  ∃ self',
    Dataset.index_1toN "test" "sp" (fresh [] 3 [] 1 [] [] [] [] [] [(2, 0, 1)] [])
    = (inr (Some [((2, 0), [1])]), self') ∧
    Dataset.indexes self' !! "test_sp" = Some [((2, 0), [1])] ∧
    Dataset.test self' = [(2, 0, 1)].
Proof.
  assert (H : ∃ self',
    Dataset.index_1toN "test" "sp" (fresh [] 3 [] 1 [] [] [] [] [] [(2, 0, 1)] [])
    = (inr (Some [((2, 0), [1])]), self')) by (vm_compute; eexists; reflexivity).
  destruct H as [self' H]. exists self'. split; [exact H|].
  destruct (index_1toN_frame _ _ _ _ _ H) as (_ & Hentry & _ & Harrays & _).
  split; [exact Hentry|]. by injection Harrays as _ _ ->.
Defined.

(** X7. The constructor builds both training indexes eagerly: a
    constructed dataset has exactly the two cache entries ["train_sp"] and
    ["train_po"], holding the sp and po indexes of the training split; it
    has logged one line for each; its other fields are the arguments; and,
    when the training split is not empty, [index_1toN] serves both
    indexes from the cache, leaving the dataset unchanged. *)
Theorem constructor_builds_train_indexes
    (config : list string)
    (num_entities : nat) (entities : list (list string))
    (num_relations : nat) (relations : list (list string))
    (train : list triple) (train_meta : list (list string))
    (valid : list triple) (valid_meta : list (list string))
    (test : list triple) (test_meta : list (list string)) (d : Dataset.t) :
  Dataset.__init__ config num_entities entities num_relations relations
    train train_meta valid valid_meta test test_meta = inr d →
  Dataset.indexes d
  = <["train_po" := po_index train]> (<["train_sp" := sp_index train]> ∅) ∧
  Dataset.config_log d
  = config ++ [pretty (length (sp_index train)) +:+ " distinct sp pairs in train";
               pretty (length (po_index train)) +:+ " distinct po pairs in train"] ∧
  (Dataset.num_entities d, Dataset.entities d,
   Dataset.num_relations d, Dataset.relations d)
  = (num_entities, entities, num_relations, relations) ∧
  (Dataset.train d, Dataset.valid d, Dataset.test d) = (train, valid, test) ∧
  (Dataset.train_meta d, Dataset.valid_meta d, Dataset.test_meta d)
  = (train_meta, valid_meta, test_meta) ∧
  (train ≠ [] →
   Dataset.index_1toN "train" "sp" d = (inr (Some (sp_index train)), d) ∧
   Dataset.index_1toN "train" "po" d = (inr (Some (po_index train)), d)).
Proof.
  rewrite init_classify.
  destruct (classify num_relations relations train) as [e|types]; [done|].
  intros [= <-]. cbn [Dataset.indexes Dataset.config_log Dataset.num_entities
    Dataset.entities Dataset.num_relations Dataset.relations Dataset.train
    Dataset.valid Dataset.test Dataset.train_meta Dataset.valid_meta
    Dataset.test_meta].
  split_and!; try done.
  - unfold after_train_indexes, fresh, after_build, Dataset.log,
      Dataset.set_indexes. cbn [Dataset.config_log Dataset.train].
    by rewrite <-(assoc_L (++)).
  - intros Hne.
    assert (Hsp : sp_index train ≠ []).
    { intros Hnil%group_by_sp_po_nil. fold (rows_of (0, 1)%nat 2 train) in Hnil.
      rewrite rows_of_fmap in Hnil. by apply fmap_nil_inv in Hnil. }
    assert (Hpo : po_index train ≠ []).
    { intros Hnil%group_by_sp_po_nil. fold (rows_of (1, 2)%nat 0 train) in Hnil.
      rewrite rows_of_fmap in Hnil. by apply fmap_nil_inv in Hnil. }
    split; apply index_1toN_cached;
      try done; try (repeat first [by left | right]).
Qed.

Lemma constructor_builds_train_indexes_witness :
  ∃ d,
    Dataset.__init__ [] 3 [[]; []; []] 1 [[]] [(0, 0, 1)] [[]] [] [] [] [] = inr d ∧
    Dataset.indexes d
    = <["train_po" := po_index [(0, 0, 1)]]> (<["train_sp" := sp_index [(0, 0, 1)]]> ∅) ∧
    Dataset.index_1toN "train" "sp" d = (inr (Some (sp_index [(0, 0, 1)])), d).
Proof.
  assert (H : ∃ d, Dataset.__init__ [] 3 [[]; []; []] 1 [[]] [(0, 0, 1)] [[]]
                     [] [] [] [] = inr d) by (vm_compute; eexists; reflexivity).
  destruct H as [d H]. exists d. split; [exact H|].
  destruct (constructor_builds_train_indexes _ _ _ _ _ _ _ _ _ _ _ _ H)
    as (Hidx & _ & _ & _ & _ & Hcached).
  split; [exact Hidx|]. by apply Hcached.
Defined.

(** * Further properties of the compact view *)

(** X8. On every index with at least one key [prepare_index] returns, and
    the view it returns has the keys in the iteration order of the index,
    [m + 1] offsets from [0] to [T = len(values)], [T] being the total
    number of completions, and, for every [i], the slice of the values
    between offsets [i] and [i + 1] equal to the completion list of key
    [i]. *)
Theorem prepare_index_view_of_nonempty_index (index : GroupedIndex) :
  index ≠ [] →
  ∃ values offsets,
    Dataset.prepare_index index = inr (index.*1, values, offsets) ∧
    length offsets = S (length index) ∧
    offsets !! 0%nat = Some 0 ∧
    offsets !! length index = Some (len values) ∧
    len values = foldr Z.add 0 (len <$> index.*2) ∧
    ∀ i k l, index !! i = Some (k, l) →
      index.*1 !! i = Some k ∧
      ∃ a b, offsets !! i = Some a ∧ offsets !! S i = Some b ∧
             py_slice a b values = l.
Proof. apply prepare_index_compact_view. Qed.

Lemma prepare_index_view_of_nonempty_index_witness :
  [((0, 0), [1; 2]); ((1, 0), [2])] ≠ ([] : GroupedIndex) ∧
  ∃ values offsets,
    Dataset.prepare_index [((0, 0), [1; 2]); ((1, 0), [2])]
    = inr ([(0, 0); (1, 0)], values, offsets) ∧
    length offsets = 3%nat ∧ offsets !! 2%nat = Some (len values).
Proof.
  assert (H : [((0, 0), [1; 2]); ((1, 0), [2])] ≠ ([] : GroupedIndex))
    by discriminate.
  split; [exact H|].
  destruct (prepare_index_view_of_nonempty_index _ H)
    as (values & offsets & Hview & Hlen & _ & Hlast & _).
  exists values, offsets. by split_and!.
Defined.

Lemma prepare_index_inr index keys values offsets :
  Dataset.prepare_index index = inr (keys, values, offsets) →
  index ≠ [] ∧ keys = index.*1 ∧ values = concat index.*2 ∧
  offsets = torch_cumsum (0 :: (len <$> index.*2)).
Proof.
  unfold Dataset.prepare_index, torch_cat.
  destruct index as [|kl index]; [done|]. cbn [rbind fmap list_fmap].
  by intros [= <- <- <-].
Qed.

(** X9. In every compact view that [prepare_index] returns, the offsets
    start at 0 and each step is the size of its group: the offsets of
    group [i] and [i + 1] are [a] and [a + len(group i)], so the offsets
    never decrease. *)
Theorem prepare_index_offsets_step
    (index : GroupedIndex) (keys : list key) (values offsets : list Z) :
  Dataset.prepare_index index = inr (keys, values, offsets) →
  offsets !! 0%nat = Some 0 ∧
  ∀ i k l, index !! i = Some (k, l) →
    ∃ a, 0 ≤ a ∧ offsets !! i = Some a ∧ offsets !! S i = Some (a + len l).
Proof.
  intros (_ & _ & _ & ->)%prepare_index_inr.
  split; [by rewrite offsets_lookup by lia|].
  intros i k l Hi.
  assert (Hl : index.*2 !! i = Some l) by by rewrite list_lookup_fmap, Hi.
  pose proof (lookup_lt_Some _ _ _ Hl) as Hlt.
  exists (len (concat (take i index.*2))). split_and!.
  - unfold len. lia.
  - apply offsets_lookup. lia.
  - rewrite offsets_lookup by lia. f_equal.
    rewrite (take_S_r _ _ _ Hl), concat_app. unfold len.
    rewrite length_app. cbn [concat]. rewrite app_nil_r. lia.
Qed.

Lemma prepare_index_offsets_step_witness :
  ∃ values offsets,
    Dataset.prepare_index [((0, 0), [1; 2]); ((1, 0), [2])]
    = inr ([(0, 0); (1, 0)], values, offsets) ∧
    ∃ a, 0 ≤ a ∧ offsets !! 1%nat = Some a ∧ offsets !! 2%nat = Some (a + len [2]).
Proof.
  assert (H : ∃ values offsets,
            Dataset.prepare_index [((0, 0), [1; 2]); ((1, 0), [2])]
            = inr ([(0, 0); (1, 0)], values, offsets))
    by (do 2 eexists; reflexivity).
  destruct H as (values & offsets & H). exists values, offsets.
  split; [exact H|].
  destruct (prepare_index_offsets_step _ _ _ _ H) as [_ Hstep].
  exact (Hstep 1%nat (1, 0) [2] eq_refl).
Defined.

(** X10. The compact view loses nothing: reading the keys with the slices
    of the values between consecutive offsets gives back the index that
    [prepare_index] was applied to. *)
Theorem prepare_index_round_trip
    (index : GroupedIndex) (keys : list key) (values offsets : list Z) :
  Dataset.prepare_index index = inr (keys, values, offsets) →
  index_of_view keys values offsets = index.
Proof.
  intros (_ & -> & -> & ->)%prepare_index_inr. unfold index_of_view.
  trans (zip index.*1 index.*2); [|apply zip_fst_snd]. f_equal.
  apply list_eq. intros i. rewrite list_lookup_fmap, length_fmap.
  destruct (index.*2 !! i) as [l|] eqn:Hl.
  - pose proof (lookup_lt_Some _ _ _ Hl) as Hlt. rewrite length_fmap in Hlt.
    rewrite lookup_seq_lt by done. cbn [fmap option_fmap option_map Nat.add].
    f_equal.
    rewrite (list_lookup_total_correct _ i (len (concat (take i index.*2))))
      by (apply offsets_lookup; rewrite length_fmap; lia).
    rewrite (list_lookup_total_correct _ (S i)
               (len (concat (take (S i) index.*2))))
      by (apply offsets_lookup; rewrite length_fmap; lia).
    by apply slice_group.
  - apply lookup_ge_None in Hl. rewrite length_fmap in Hl.
    by rewrite lookup_seq_ge by done.
Qed.

Lemma prepare_index_round_trip_witness :
  ∃ values offsets,
    Dataset.prepare_index [((0, 0), [1; 2]); ((1, 0), [2])]
    = inr ([(0, 0); (1, 0)], values, offsets) ∧
    index_of_view [(0, 0); (1, 0)] values offsets
    = [((0, 0), [1; 2]); ((1, 0), [2])].
Proof.
  assert (H : ∃ values offsets,
            Dataset.prepare_index [((0, 0), [1; 2]); ((1, 0), [2])]
            = inr ([(0, 0); (1, 0)], values, offsets))
    by (do 2 eexists; reflexivity).
  destruct H as (values & offsets & H). exists values, offsets.
  split; [exact H|]. exact (prepare_index_round_trip _ _ _ _ H).
Defined.

(** X11. The builder followed by [prepare_index], on a split with at least
    one triple: the call returns; there are as many values as triples, and
    they are the objects of the triples, rearranged; the last offset is the
    number of triples; and every group of the view is sorted ascending. *)
Theorem prepare_index_of_sp_index (triples : list triple) :
  triples ≠ [] →
  ∃ values offsets,
    Dataset.prepare_index (sp_index triples)
    = inr ((sp_index triples).*1, values, offsets) ∧
    values ≡ₚ tensor_col 2 triples ∧
    length values = length triples ∧
    offsets !! length (sp_index triples) = Some (len triples) ∧
    ∀ i a b, offsets !! i = Some a → offsets !! S i = Some b →
             Sorted Z.le (py_slice a b values).
Proof.
  intros Hne.
  assert (Hidx : sp_index triples ≠ []).
  { intros Hnil%group_by_sp_po_nil. fold (rows_of (0, 1)%nat 2 triples) in Hnil.
    rewrite rows_of_fmap in Hnil. by apply fmap_nil_inv in Hnil. }
  destruct (prepare_index_compact_view _ Hidx)
    as (values & offsets & Hview & Hlen & _ & Hlast & _ & Hslices).
  apply prepare_index_inr in Hview as Hinr. destruct Hinr as (_ & _ & Hvalues & _).
  assert (Hperm : values ≡ₚ tensor_col 2 triples).
  { rewrite Hvalues. unfold sp_index.
    rewrite group_by_sp_po_unfold, concat_sorted_values, raw_groups_values.
    fold (rows_of (0, 1)%nat 2 triples). rewrite rows_of_fmap.
    unfold tensor_col. by rewrite <-list_fmap_compose. }
  assert (Hlength : length values = length triples).
  { rewrite Hperm. unfold tensor_col. by rewrite length_fmap. }
  exists values, offsets. split_and!; try done.
  - rewrite Hlast. unfold len. by rewrite Hlength.
  - intros i a b Ha Hb.
    destruct (sp_index triples !! i) as [[k l]|] eqn:Hi.
    + destruct (Hslices i k l Hi) as (_ & a' & b' & Ha' & Hb' & Hslice).
      rewrite Ha in Ha'. rewrite Hb in Hb'. injection Ha' as <-.
      injection Hb' as <-. rewrite Hslice.
      unfold sp_index in Hi. by apply (prepare_index_slices_sorted _ _ _ _ _ Hi).
    + apply lookup_ge_None in Hi. apply lookup_lt_Some in Hb. lia.
Qed.

Lemma prepare_index_of_sp_index_witness :
  [(0, 0, 2); (0, 0, 1); (1, 0, 2)] ≠ ([] : list triple) ∧
  ∃ values offsets,
    Dataset.prepare_index (sp_index [(0, 0, 2); (0, 0, 1); (1, 0, 2)])
    = inr ((sp_index [(0, 0, 2); (0, 0, 1); (1, 0, 2)]).*1, values, offsets) ∧
    length values = 3%nat.
Proof.
  assert (H : [(0, 0, 2); (0, 0, 1); (1, 0, 2)] ≠ ([] : list triple))
    by discriminate.
  split; [exact H|].
  destruct (prepare_index_of_sp_index _ H)
    as (values & offsets & Hview & _ & Hlen & _).
  exists values, offsets. by split.
Defined.

(** * Further properties of the constructor and the classifier *)

Lemma norm_index_is_inr n (z : Z) :
  (∃ r, norm_index n z = inr r) ↔ - Z.of_nat n ≤ z < Z.of_nat n.
Proof.
  unfold norm_index. split.
  - intros [r Hr]. repeat case_bool_decide; try lia. done.
  - intros Hz. repeat case_bool_decide; try lia; by eexists.
Qed.

Lemma label_loop_inl t (l : list (list string)) a m0 e :
  for_each (Dataset.label_body t) m0 (zip (seq a (length l)) l) = inl e →
  e = IndexError.
Proof.
  revert a m0. induction l as [|x l IH]; intros a m0; [done|].
  cbn [length seq zip zip_with for_each]. rewrite label_body_spec.
  case_decide; cbn [rbind]; [apply IH | by intros [= <-]].
Qed.

(** The two loops complete exactly when every training predicate is an
    index of the statistics table. *)
Lemma filled_stats_is_inr num_relations train :
  (∃ t, filled_stats num_relations train = inr t) ↔
  ∀ s p o, (s, p, o) ∈ train →
           - Z.of_nat num_relations ≤ p < Z.of_nat num_relations.
Proof.
  split.
  - intros [t Ht] s p o Hin.
    destruct (filled_stats_inr _ _ _ Ht) as (_ & _ & Hsp & _).
    destruct (sp_index_has_key _ _ _ _ Hin) as [l Hl].
    apply norm_index_is_inr. by apply (Hsp s p l).
  - intros Hrange. destruct (filled_stats num_relations train) as [e|t] eqn:Ht;
      [|by eexists].
    destruct (filled_stats_inl _ _ _ Ht) as [_ (s & p & o & Hin & Hbad)].
    apply Hrange, norm_index_is_inr in Hin as [r Hr]. by rewrite Hr in Hbad.
Qed.

(** X12. When the constructor fails and when it does not. It returns a
    dataset exactly when every training predicate [p] is a valid index of
    the statistics table, [-num_relations <= p < num_relations] (negative
    predicates count from the end), and [relations] has at most
    [num_relations] entries; and when it fails, the exception is always
    [IndexError]. *)
Theorem constructor_succeeds_iff
    (config : list string)
    (num_entities : nat) (entities : list (list string))
    (num_relations : nat) (relations : list (list string))
    (train : list triple) (train_meta : list (list string))
    (valid : list triple) (valid_meta : list (list string))
    (test : list triple) (test_meta : list (list string)) :
  ((∃ d, Dataset.__init__ config num_entities entities num_relations relations
           train train_meta valid valid_meta test test_meta = inr d) ↔
   (∀ s p o, (s, p, o) ∈ train →
             - Z.of_nat num_relations ≤ p < Z.of_nat num_relations) ∧
   (length relations ≤ num_relations)%nat) ∧
  (∀ e, Dataset.__init__ config num_entities entities num_relations relations
          train train_meta valid valid_meta test test_meta = inl e →
        e = IndexError).
Proof.
  rewrite init_classify. unfold classify.
  destruct (filled_stats num_relations train) as [e|t] eqn:Ht; cbn [rbind].
  - destruct (filled_stats_inl _ _ _ Ht) as [-> _]. split.
    + split; [by intros [d [=]]|]. intros [Hrange _].
      apply filled_stats_is_inr in Hrange as [t Ht']. by rewrite Ht in Ht'.
    + by intros e [= <-].
  - assert (Hrange : ∀ s p o, (s, p, o) ∈ train →
              - Z.of_nat num_relations ≤ p < Z.of_nat num_relations)
      by (apply filled_stats_is_inr; by exists t).
    destruct (filled_stats_inr _ _ _ Ht) as (Hlen & _).
    rewrite label_relations_unfold.
    destruct (for_each _ _ _) as [e|types] eqn:Hl.
    + pose proof (label_loop_inl _ _ _ _ _ Hl) as ->. split.
      * split; [by intros [d [=]]|]. intros [_ Hrel].
        destruct (label_loop_total (Dataset.threshold_stats t) relations 0 ∅)
          as [m Hm]; [rewrite length_threshold_stats; lia|].
        by rewrite Hl in Hm.
      * by intros e [= <-].
    + split; [|by intros e [=]]. split; [|by eexists].
      intros _. split; [done|].
      destruct (label_loop_inr _ _ _ _ _ Hl) as [[->|Hle] _]; [simpl; lia|].
      rewrite length_threshold_stats in Hle. lia.
Qed.

(** X13. The group-count columns of the statistics table. On a fresh
    dataset whose training predicates are in [0, num_relations), the table
    of [_get_relation_types] holds, for every relation [i], in column 3 the
    number of keys [(s, i)] of the training sp index and in column 1 the
    number of keys [(i, o)] of the training po index, each capped at
    [2^24 = 16777216]: the count is kept in float32, and adding [1.] to
    [16777216.] gives [16777216.] again. *)
Theorem relation_stats_group_counts
    (config : list string)
    (num_entities : nat) (entities : list (list string))
    (num_relations : nat) (relations : list (list string))
    (train : list triple) (train_meta : list (list string))
    (valid : list triple) (valid_meta : list (list string))
    (test : list triple) (test_meta : list (list string))
    (stats : tensor2) (i : nat) :
  (∀ s p o, (s, p, o) ∈ train → 0 ≤ p < Z.of_nat num_relations) →
  (Dataset.relation_stats
     (fresh config num_entities entities num_relations relations
        train train_meta valid valid_meta test test_meta)).1 = inr stats →
  (i < num_relations)%nat →
  entry stats i 3
  = Z.min (spec_groups 1 (sp_index train) (Z.of_nat i)) (2 ^ 24) ∧
  entry stats i 1
  = Z.min (spec_groups 0 (po_index train) (Z.of_nat i)) (2 ^ 24).
Proof.
  intros Hrange Hstats Hi. rewrite relation_stats_fresh in Hstats by done.
  cbn [fst fresh Dataset.num_relations Dataset.train] in Hstats.
  destruct (filled_stats num_relations train) as [e|t] eqn:Ht; [done|].
  cbn [rbind] in Hstats. injection Hstats as <-.
  destruct (filled_stats_inr _ _ _ Ht) as (Hlen & Hsix & _).
  destruct (entry_threshold_stats t i ltac:(lia) Hsix) as (_ & _ & Hsame).
  rewrite !Hsame by lia.
  exact (filled_stats_group_counts num_relations train t i Hrange Ht Hi).
Qed.

Lemma relation_stats_group_counts_witness :
  ∃ stats,
    ((∀ s p o, (s, p, o) ∈ [(0, 0, 1); (0, 0, 2); (1, 0, 2)] →
               0 ≤ p < Z.of_nat 1) ∧
     (Dataset.relation_stats
        (fresh [] 3 [] 1 [[]] [(0, 0, 1); (0, 0, 2); (1, 0, 2)] [] [] [] [] [])).1
     = inr stats ∧ (0 < 1)%nat) ∧
    entry stats 0 3 = 2 ∧ entry stats 0 1 = 2.
Proof.
  assert (H1 : ∀ s p o, (s, p, o) ∈ [(0, 0, 1); (0, 0, 2); (1, 0, 2)] →
                        0 ≤ p < Z.of_nat 1).
  { intros s p o Hin.
    repeat (apply elem_of_cons in Hin as [[= -> -> ->]|Hin]; [simpl; lia|]).
    by apply elem_of_nil in Hin. }
  assert (H2 : ∃ stats,
    (Dataset.relation_stats
       (fresh [] 3 [] 1 [[]] [(0, 0, 1); (0, 0, 2); (1, 0, 2)] [] [] [] [] [])).1
    = inr stats) by (vm_compute; eexists; reflexivity).
  destruct H2 as [stats H2]. exists stats.
  assert (H3 : (0 < 1)%nat) by lia.
  split; [by split_and!|].
  exact (relation_stats_group_counts [] 3 [] 1 [[]]
           [(0, 0, 1); (0, 0, 2); (1, 0, 2)] [] [] [] [] [] stats 0 H1 H2 H3).
Defined.

(** The sets collected by the loop of [__init__]: relation [k] is in the
    set of a label exactly when that is its label, and no set is empty. *)
Lemma per_type_spec (types : gmap nat string) (label : string) :
  (∀ k, k ∈ default ∅ (Dataset.per_type types !! label) ↔
        types !! k = Some label) ∧
  (is_Some (Dataset.per_type types !! label) → ∃ k, types !! k = Some label).
Proof.
  unfold Dataset.per_type.
  apply (map_fold_weak_ind
    (λ (acc : gmap string (gset nat)) (m : gmap nat string),
       (∀ k, k ∈ default ∅ (acc !! label) ↔ m !! k = Some label) ∧
       (is_Some (acc !! label) → ∃ k, m !! k = Some label))).
  - split.
    + intros k. rewrite !lookup_empty. cbn. set_solver.
    + rewrite lookup_empty. by intros [? [=]].
  - intros i x m acc Hfresh [IHin IHsome].
    destruct (decide (x = label)) as [->|Hne].
    + rewrite lookup_insert_eq. cbn [from_option id]. split.
      * intros k. rewrite elem_of_union, elem_of_singleton, IHin.
        destruct (decide (k = i)) as [->|Hki].
        -- rewrite lookup_insert_eq. by split; [|left].
        -- rewrite lookup_insert_ne by done. split; [by intros [?|?]|by right].
      * intros _. exists i. by rewrite lookup_insert_eq.
    + rewrite lookup_insert_ne by done. split.
      * intros k. rewrite IHin. destruct (decide (k = i)) as [->|Hki].
        -- rewrite lookup_insert_eq, Hfresh. split; [done | by intros [=]].
        -- by rewrite lookup_insert_ne.
      * intros [k Hk]%IHsome. exists k.
        rewrite lookup_insert_ne; [done|]. intros <-. by rewrite Hfresh in Hk.
Qed.

(** X14. [relations_per_type] partitions the labelled relations: in a
    constructed dataset, relation [k] belongs to the set stored under a
    label exactly when [relation_types] gives [k] that label, so every
    labelled relation is in one set and one only; and every set that is
    stored has a member. *)
Theorem relations_per_type_partition
    (config : list string)
    (num_entities : nat) (entities : list (list string))
    (num_relations : nat) (relations : list (list string))
    (train : list triple) (train_meta : list (list string))
    (valid : list triple) (valid_meta : list (list string))
    (test : list triple) (test_meta : list (list string)) (d : Dataset.t) :
  Dataset.__init__ config num_entities entities num_relations relations
    train train_meta valid valid_meta test test_meta = inr d →
  (∀ label k, k ∈ default ∅ (Dataset.relations_per_type d !! label) ↔
              Dataset.relation_types d !! k = Some label) ∧
  (∀ label set, Dataset.relations_per_type d !! label = Some set →
                ∃ k, k ∈ set).
Proof.
  rewrite init_classify.
  destruct (classify num_relations relations train) as [e|types]; [done|].
  intros [= <-]. cbn [Dataset.relations_per_type Dataset.relation_types].
  split.
  - intros label. apply per_type_spec.
  - intros label set Hset.
    destruct (per_type_spec types label) as [Hin Hsome].
    destruct Hsome as [k Hk]; [by rewrite Hset|].
    exists k. apply Hin in Hk. by rewrite Hset in Hk.
Qed.

Lemma relations_per_type_partition_witness :
  ∃ d,
    Dataset.__init__ [] 3 [[]; []; []] 2 [[]; []]
      [(1, 0, 0); (2, 0, 0)] [[]; []] [] [] [] [] = inr d ∧
    (1%nat ∈ default ∅ (Dataset.relations_per_type d !! "1-1") ↔
     Dataset.relation_types d !! 1%nat = Some "1-1").
Proof.
  assert (H : ∃ d, Dataset.__init__ [] 3 [[]; []; []] 2 [[]; []]
                     [(1, 0, 0); (2, 0, 0)] [[]; []] [] [] [] [] = inr d)
    by (vm_compute; eexists; reflexivity).
  destruct H as [d H]. exists d. split; [exact H|].
  exact (proj1 (relations_per_type_partition _ _ _ _ _ _ _ _ _ _ _ _ H) "1-1" 1%nat).
Defined.

(** X15. The relation types are computed from the training split alone:
    two constructor calls with the same [num_relations], [relations] and
    [train], whatever their configuration, entity data, metadata and
    valid and test splits, either both fail with the same exception or
    both return, with equal [relation_types] and [relations_per_type]. *)
Theorem relation_types_from_training_split_only
    (num_relations : nat) (relations : list (list string)) (train : list triple)
    (config config' : list string)
    (num_entities num_entities' : nat) (entities entities' : list (list string))
    (train_meta train_meta' : list (list string))
    (valid valid' : list triple) (valid_meta valid_meta' : list (list string))
    (test test' : list triple) (test_meta test_meta' : list (list string)) :
  match
    Dataset.__init__ config num_entities entities num_relations relations
      train train_meta valid valid_meta test test_meta,
    Dataset.__init__ config' num_entities' entities' num_relations relations
      train train_meta' valid' valid_meta' test' test_meta'
  with
  | inr d, inr d' =>
      Dataset.relation_types d = Dataset.relation_types d' ∧
      Dataset.relations_per_type d = Dataset.relations_per_type d'
  | inl e, inl e' => e = e'
  | _, _ => False
  end.
Proof.
  rewrite !init_classify.
  by destruct (classify num_relations relations train).
Qed.

(** * Properties of the loaders *)

Section odict.
Context {K V : Type} `{EqDecision K}.
Implicit Types (k : K) (v : V) (d : list (K * V)).

Lemma odict_get_set k k' v d :
  odict_get k' (odict_set k v d)
  = if decide (k = k') then Some v else odict_get k' d.
Proof.
  induction d as [|[k0 v0] d IH]; cbn [odict_set odict_get].
  - by case_decide.
  - destruct (decide (k0 = k)) as [->|Hne]; cbn [odict_get].
    + repeat case_decide; by subst.
    + rewrite IH. repeat case_decide; by subst.
Qed.

Lemma odict_set_keys k v d :
  (odict_set k v d).*1 = if decide (k ∈ d.*1) then d.*1 else d.*1 ++ [k].
Proof.
  induction d as [|[k0 v0] d IH]; cbn [odict_set fmap list_fmap fst].
  - case_decide as Hin; [by apply elem_of_nil in Hin | done].
  - destruct (decide (k0 = k)) as [->|Hne]; cbn [fmap list_fmap fst].
    + rewrite decide_True; [done | left].
    + change (list_fmap _ _ fst ?l) with (l.*1). rewrite IH.
      destruct (decide (k ∈ d.*1)) as [Hin|Hin].
      * rewrite decide_True; [done | by right].
      * rewrite decide_False; [done|]. rewrite not_elem_of_cons. by split.
Qed.

Lemma odict_set_NoDup k v d : NoDup d.*1 → NoDup (odict_set k v d).*1.
Proof.
  intros Hd. rewrite odict_set_keys. case_decide; [done|].
  apply NoDup_app. split_and!; [done | | apply NoDup_singleton].
  intros x Hx ->%list_elem_of_singleton. done.
Qed.

Lemma odict_set_fresh k v d : k ∉ d.*1 → odict_set k v d = d ++ [(k, v)].
Proof.
  induction d as [|[k0 v0] d IH]; [done|]. cbn [odict_set fmap list_fmap fst].
  rewrite not_elem_of_cons. intros [Hne Hd].
  rewrite decide_False by done. cbn [app]. f_equal. by apply IH.
Qed.

Lemma odict_get_None k d : odict_get k d = None ↔ k ∉ d.*1.
Proof.
  induction d as [|[k0 v0] d IH]; cbn [odict_get fmap list_fmap fst].
  - split; [intros _; apply not_elem_of_nil | done].
  - rewrite not_elem_of_cons. destruct (decide (k0 = k)) as [->|Hne].
    + split; [done | intros [? _]; done].
    + rewrite IH. split; [by split | by intros [_ ?]].
Qed.
End odict.

Lemma load_map_row_spec w n d row e :
  map_row w row e →
  Dataset.load_map_row w (n, d) row
  = inr (Z.max n (e.1 + 1), odict_set e.1 e.2 d).
Proof.
  intros (field & -> & Hint). unfold Dataset.load_map_row, row_at, int_of.
  cbn [lookup list_lookup rbind]. by rewrite Hint.
Qed.

Lemma load_map_rows_spec w rows entries n d :
  Forall2 (map_row w) rows entries →
  for_each (Dataset.load_map_row w) (n, d) rows
  = inr (map_size n entries, map_dictionary d entries).
Proof.
  intros Hrows. revert n d.
  induction Hrows as [|row e rows entries Hrow _ IH]; intros n d; [done|].
  cbn [for_each]. rewrite (load_map_row_spec _ _ _ _ _ Hrow). cbn [rbind].
  apply IH.
Qed.

Lemma map_size_cons n e entries :
  map_size n (e :: entries) = map_size (Z.max n (e.1 + 1)) entries.
Proof. reflexivity. Qed.

Lemma map_size_le n entries : n ≤ map_size n entries.
Proof.
  revert n. induction entries as [|e entries IH]; intros n; [done|].
  cbn [map_size foldl]. etrans; [|apply IH]. lia.
Qed.

Lemma map_size_bound n entries e :
  e ∈ entries → e.1 + 1 ≤ map_size n entries.
Proof.
  revert n. induction entries as [|e' entries IH]; intros n.
  - by intros ?%elem_of_nil.
  - cbn [map_size foldl]. intros [->|Hin]%elem_of_cons.
    + etrans; [|apply map_size_le]. lia.
    + by apply IH.
Qed.

Lemma map_size_reached n entries :
  map_size n entries = n ∨ ∃ e, e ∈ entries ∧ map_size n entries = e.1 + 1.
Proof.
  revert n. induction entries as [|e entries IH]; intros n; [by left|].
  rewrite map_size_cons.
  destruct (IH (Z.max n (e.1 + 1))) as [Heq|(e' & Hin & Heq)].
  - rewrite Heq. destruct (Z.max_spec n (e.1 + 1)) as [[_ ->]|[_ ->]].
    + right. exists e. split; [left | done].
    + by left.
  - right. exists e'. split; [by right | done].
Qed.

Lemma map_dictionary_snoc d entries e :
  map_dictionary d (entries ++ [e]) = odict_set e.1 e.2 (map_dictionary d entries).
Proof. unfold map_dictionary. by rewrite foldl_app. Qed.

Lemma map_dictionary_NoDup entries : NoDup (map_dictionary [] entries).*1.
Proof.
  induction entries as [|e entries IH] using rev_ind; [apply NoDup_nil_2|].
  rewrite map_dictionary_snoc. by apply odict_set_NoDup.
Qed.

(** A key of the dictionary maps to the metadata of the last entry that
    carries it. *)
Lemma map_dictionary_get entries i :
  odict_get i (map_dictionary [] entries) = last_meta i entries.
Proof.
  unfold last_meta.
  induction entries as [|[k meta] entries IH] using rev_ind; [done|].
  rewrite map_dictionary_snoc, odict_get_set, filter_app, filter_cons, filter_nil.
  cbn [fst snd]. case_decide as Hk.
  - by rewrite last_snoc.
  - by rewrite app_nil_r.
Qed.

Lemma list_set_spec {A} (array : list A) (i : nat) (x : A) :
  (i < length array)%nat →
  list_set array (Z.of_nat i) x = inr (<[i := x]> array).
Proof.
  intros Hi. unfold list_set. rewrite norm_index_nat.
  by rewrite decide_True by done.
Qed.

Lemma list_set_inr {A} (array array' : list A) (index : Z) (x : A) :
  list_set array index x = inr array' →
  length array' = length array ∧
  - Z.of_nat (length array) ≤ index < Z.of_nat (length array).
Proof.
  unfold list_set.
  destruct (norm_index (length array) index) as [e|r] eqn:Hr; [done|].
  cbn [rbind]. intros [= <-]. split; [apply length_insert|].
  apply norm_index_is_inr. by exists r.
Qed.

Lemma list_set_inl {A} (array : list A) (index : Z) (x : A) e :
  list_set array index x = inl e → e = IndexError.
Proof.
  unfold list_set.
  destruct (norm_index (length array) index) as [e'|r] eqn:Hr; [|done].
  cbn [rbind]. intros [= <-]. by apply norm_index_inl in Hr.
Qed.

(** Filling an array from a dictionary whose keys are distinct positions
    of the array: every key replaces its slot, the other slots stay. *)
Lemma fill_array_spec (dictionary : list (Z * list string)) array :
  NoDup dictionary.*1 →
  (∀ k, k ∈ dictionary.*1 → 0 ≤ k < Z.of_nat (length array)) →
  ∃ array',
    Dataset.fill_array array dictionary = inr array' ∧
    length array' = length array ∧
    ∀ i, array' !! i
         = match odict_get (Z.of_nat i) dictionary with
           | Some meta => if decide (i < length array)%nat then Some meta else None
           | None => array !! i
           end.
Proof.
  unfold Dataset.fill_array. revert array.
  induction dictionary as [|[k meta] dictionary IH]; intros array Hnodup Hkeys.
  - exists array. by split_and!.
  - cbn [fmap list_fmap fst] in Hnodup, Hkeys.
    apply NoDup_cons in Hnodup as [Hk Hnodup].
    destruct (Hkeys k ltac:(left)) as [Hk0 Hk1].
    pose proof (list_set_spec array (Z.to_nat k) meta ltac:(lia)) as Hset.
    rewrite Z2Nat.id in Hset by done.
    cbn [for_each]. rewrite Hset. cbn [rbind].
    destruct (IH (<[Z.to_nat k := meta]> array) Hnodup) as (array' & Hrun & Hlen & Hget).
    { intros k' Hk'. rewrite length_insert. apply Hkeys. by right. }
    rewrite length_insert in Hlen. exists array'. split_and!; [done..|].
    intros i. rewrite Hget. cbn [odict_get].
    destruct (decide (k = Z.of_nat i)) as [->|Hne].
    + assert (odict_get (Z.of_nat i) dictionary = None) as ->
        by by apply odict_get_None.
      rewrite Nat2Z.id.
      rewrite list_lookup_insert_eq by lia.
      by rewrite decide_True by lia.
    + destruct (odict_get (Z.of_nat i) dictionary); [by rewrite length_insert|].
      rewrite list_lookup_insert_ne; [done | lia].
Qed.

Lemma fill_array_length dictionary array array' :
  Dataset.fill_array array dictionary = inr array' →
  length array' = length array.
Proof.
  unfold Dataset.fill_array. revert array.
  induction dictionary as [|[k meta] dictionary IH]; intros array.
  - by intros [= <-].
  - cbn [for_each]. destruct (list_set array k meta) as [e|a1] eqn:Hset; [done|].
    cbn [rbind]. intros Hrun%IH. rewrite Hrun.
    by apply list_set_inr in Hset as [-> _].
Qed.

(** [_load_map] on a file that reads as entries with indices [>= 0]. *)
Lemma load_map_well_formed w filename entries :
  map_file w filename entries →
  ∃ array,
    Dataset._load_map w filename = inr (map_size 0 entries, array) ∧
    length array = Z.to_nat (map_size 0 entries) ∧
    ∀ i, (i < Z.to_nat (map_size 0 entries))%nat →
         array !! i = Some (default [] (last_meta (Z.of_nat i) entries)).
Proof.
  intros (rows & Hread & Hrows & Hpos).
  pose proof (map_size_le 0 entries) as Hn0.
  assert (Hkeys : ∀ k, k ∈ (map_dictionary [] entries).*1 →
            0 ≤ k < map_size 0 entries).
  { intros k Hk.
    destruct (odict_get k (map_dictionary [] entries)) as [meta|] eqn:Hget;
      [|by apply odict_get_None in Hget].
    rewrite map_dictionary_get in Hget. unfold last_meta in Hget.
    destruct (last _) as [e|] eqn:Hlast; [|done].
    apply last_Some_elem_of, list_elem_of_filter in Hlast as [<- Hin].
    split; [by apply Hpos|].
    pose proof (map_size_bound 0 _ _ Hin). lia. }
  destruct (fill_array_spec (map_dictionary [] entries)
              (replicate (Z.to_nat (map_size 0 entries)) []))
    as (array & Hfill & Hlen & Hget).
  { apply map_dictionary_NoDup. }
  { intros k Hk. rewrite length_replicate, Z2Nat.id by done. by apply Hkeys. }
  rewrite length_replicate in Hlen, Hget.
  exists array. split_and!.
  - unfold Dataset._load_map. rewrite Hread. cbn [outside lbind].
    rewrite (load_map_rows_spec _ _ _ _ _ Hrows). cbn [rbind].
    by rewrite Hfill.
  - done.
  - intros i Hi. rewrite Hget, map_dictionary_get.
    destruct (last_meta (Z.of_nat i) entries); cbn.
    + by rewrite decide_True.
    + by apply lookup_replicate_2.
Qed.

(** X16. [_load_map] on a file whose rows all start with a non-negative
    integer literal: the call returns [(n, array)] with [n] one more than
    the largest index (0 for a file with no row), an array of [n] slots,
    and in slot [i] the fields that follow the index in the last row with
    index [i], or the empty list when no row has index [i]. *)
Theorem load_map_dense_array
    (w : World) (filename : string) (rows : list (list string))
    (entries : list (Z * list string)) :
  read_rows w filename = Some rows →
  Forall2 (map_row w) rows entries →
  (∀ e, e ∈ entries → 0 ≤ e.1) →
  ∃ (n : nat) array,
    Dataset._load_map w filename = inr (Z.of_nat n, array) ∧
    length array = n ∧
    (∀ e, e ∈ entries → e.1 < Z.of_nat n) ∧
    (entries = [] ∧ n = 0%nat ∨ ∃ e, e ∈ entries ∧ Z.of_nat n = e.1 + 1) ∧
    ∀ i, (i < n)%nat →
         array !! i = Some (default [] (last_meta (Z.of_nat i) entries)).
Proof.
  intros Hread Hrows Hpos.
  destruct (load_map_well_formed w filename entries)
    as (array & Hload & Hlen & Hslots); [by exists rows|].
  pose proof (map_size_le 0 entries) as Hn0.
  exists (Z.to_nat (map_size 0 entries)), array. split_and!.
  - by rewrite Z2Nat.id.
  - done.
  - intros e Hin. pose proof (map_size_bound 0 _ _ Hin). lia.
  - destruct (map_size_reached 0 entries) as [Heq|(e & Hin & Heq)].
    + destruct entries as [|e entries]; [left; by rewrite Heq|].
      pose proof (map_size_bound 0 (e :: entries) e ltac:(left)).
      pose proof (Hpos e ltac:(left)). lia.
    + right. exists e. split; [done|]. lia.
  - done.
Qed.

Lemma load_map_dense_array_witness :
  ∃ (n : nat) array,
    Dataset._load_map toy_world "kge/data/toy/entity_map.del"
    = inr (Z.of_nat n, array) ∧
    length array = n ∧
    array !! 0%nat
    = Some (default [] (last_meta 0 [(0, ["a"]); (2, ["c"; "x"]); (0, ["b"])])) ∧
    array !! 1%nat
    = Some (default [] (last_meta 1 [(0, ["a"]); (2, ["c"; "x"]); (0, ["b"])])).
Proof.
  assert (H1 : read_rows toy_world "kge/data/toy/entity_map.del"
               = Some [["0"; "a"]; ["2"; "c"; "x"]; ["0"; "b"]]) by reflexivity.
  assert (H2 : Forall2 (map_row toy_world)
                 [["0"; "a"]; ["2"; "c"; "x"]; ["0"; "b"]]
                 [(0, ["a"]); (2, ["c"; "x"]); (0, ["b"])]).
  { repeat constructor; eexists; split; reflexivity. }
  assert (H3 : ∀ e, e ∈ [(0, ["a"]); (2, ["c"; "x"]); (0, ["b"])] → 0 ≤ e.1).
  { intros e He. repeat (apply elem_of_cons in He as [->|He]; [simpl; lia|]).
    by apply elem_of_nil in He. }
  destruct (load_map_dense_array toy_world _ _ _ H1 H2 H3)
    as (n & array & Hload & Hlen & Hlt & _ & Hslots).
  exists n, array. split_and!; [done..| |].
  - apply Hslots. pose proof (Hlt (2, ["c"; "x"])
                                ltac:(apply list_elem_of_further, list_elem_of_here)).
    simpl in *. lia.
  - apply Hslots. pose proof (Hlt (2, ["c"; "x"])
                                ltac:(apply list_elem_of_further, list_elem_of_here)).
    simpl in *. lia.
Defined.

Lemma load_map_rows_size w rows n0 d0 n d :
  for_each (Dataset.load_map_row w) (n0, d0) rows = inr (n, d) → n0 ≤ n.
Proof.
  revert n0 d0. induction rows as [|row rows IH]; intros n0 d0.
  - intros [= <- _]. lia.
  - cbn [for_each].
    destruct (Dataset.load_map_row w (n0, d0) row) as [e|[n1 d1]] eqn:Hrow; [done|].
    cbn [rbind]. intros Hrun%IH. etrans; [|apply Hrun].
    unfold Dataset.load_map_row in Hrow.
    destruct (row_at row 0) as [e|field]; [done|]. cbn [rbind] in Hrow.
    destruct (int_of w field) as [e|index]; [done|]. cbn [rbind] in Hrow.
    injection Hrow as <- _. lia.
Qed.

(** X17. Whatever the file holds, a call of [_load_map] that returns hands
    back a count [n >= 0] together with an array of exactly [n] slots. *)
Theorem load_map_array_has_n_slots
    (w : World) (filename : string) (n : Z) (array : list (list string)) :
  Dataset._load_map w filename = inr (n, array) →
  0 ≤ n ∧ length array = Z.to_nat n.
Proof.
  unfold Dataset._load_map.
  destruct (read_rows w filename) as [rows|]; [|done]. cbn [outside lbind].
  destruct (for_each _ _ rows) as [e|[n' d]] eqn:Hrows; [done|]. cbn [rbind].
  destruct (Dataset.fill_array _ d) as [e|array'] eqn:Hfill; [done|].
  cbn [rbind raised]. intros [= <- <-].
  apply load_map_rows_size in Hrows. apply fill_array_length in Hfill.
  rewrite length_replicate in Hfill. done.
Qed.

Lemma load_map_array_has_n_slots_witness :
  ∃ n array,
    Dataset._load_map toy_world "kge/data/toy/entity_map.del" = inr (n, array) ∧
    0 ≤ n ∧ length array = Z.to_nat n.
Proof.
  assert (H : ∃ n array, Dataset._load_map toy_world "kge/data/toy/entity_map.del"
                         = inr (n, array)) by (do 2 eexists; reflexivity).
  destruct H as (n & array & H). exists n, array.
  split; [exact H|]. exact (load_map_array_has_n_slots _ _ _ _ H).
Defined.

Lemma for_each_app {A S} (body : S → A → result S) st (l1 l2 : list A) :
  for_each body st (l1 ++ l2)
  = try! st' := for_each body st l1 in for_each body st' l2.
Proof.
  revert st. induction l1 as [|x l1 IH]; intros st; [done|].
  cbn [app for_each]. destruct (body st x) as [e|st']; [done|].
  cbn [rbind]. apply IH.
Qed.

(** X18. The first row of a map file that does not read as an entry decides
    the outcome of [_load_map]: when the rows before it all start with an
    integer literal, an empty row (a blank line of the file) raises
    [IndexError], and a row whose first field is not an integer literal
    raises [ValueError]. *)
Theorem load_map_bad_row
    (w : World) (filename : string) (good : list (list string))
    (bad : list string) (rest : list (list string))
    (entries : list (Z * list string)) :
  read_rows w filename = Some (good ++ bad :: rest) →
  Forall2 (map_row w) good entries →
  (bad = [] →
   Dataset._load_map w filename = inl (Raised IndexError)) ∧
  (∀ field meta, bad = field :: meta → py_int w field = None →
   Dataset._load_map w filename = inl (Raised ValueError)).
Proof.
  intros Hread Hgood. unfold Dataset._load_map. rewrite Hread.
  cbn [outside lbind]. rewrite for_each_app.
  rewrite (load_map_rows_spec _ _ _ _ _ Hgood). cbn [rbind for_each]. split.
  - by intros ->.
  - intros field meta -> Hint. unfold Dataset.load_map_row, row_at, int_of.
    cbn [lookup list_lookup rbind]. by rewrite Hint.
Qed.

Lemma load_map_bad_row_witness :
  (read_rows toy_world "kge/data/toy/blank_line.del"
   = Some ([["0"; "a"]] ++ [] :: [["1"; "b"]]) ∧
   Forall2 (map_row toy_world) [["0"; "a"]] [(0, ["a"])]) ∧
  Dataset._load_map toy_world "kge/data/toy/blank_line.del"
  = inl (Raised IndexError).
Proof.
  assert (H1 : read_rows toy_world "kge/data/toy/blank_line.del"
               = Some ([["0"; "a"]] ++ [] :: [["1"; "b"]])) by reflexivity.
  assert (H2 : Forall2 (map_row toy_world) [["0"; "a"]] [(0, ["a"])]).
  { repeat constructor; eexists; split; reflexivity. }
  split; [by split|].
  exact (proj1 (load_map_bad_row toy_world _ _ _ _ _ H1 H2) eq_refl).
Defined.

Lemma fill_array_inl dictionary array e :
  Dataset.fill_array array dictionary = inl e → e = IndexError.
Proof.
  unfold Dataset.fill_array. revert array.
  induction dictionary as [|[k meta] dictionary IH]; intros array; [done|].
  cbn [for_each]. destruct (list_set array k meta) as [e'|a1] eqn:Hset.
  - cbn [rbind]. intros [= <-]. by apply list_set_inl in Hset.
  - cbn [rbind]. apply IH.
Qed.

Lemma fill_array_inr_keys dictionary array array' k :
  Dataset.fill_array array dictionary = inr array' → k ∈ dictionary.*1 →
  - Z.of_nat (length array) ≤ k < Z.of_nat (length array).
Proof.
  unfold Dataset.fill_array. revert array.
  induction dictionary as [|[k' meta] dictionary IH]; intros array.
  - by intros _ ?%elem_of_nil.
  - cbn [for_each fmap list_fmap fst].
    destruct (list_set array k' meta) as [e|a1] eqn:Hset; [done|].
    cbn [rbind]. apply list_set_inr in Hset as [Hlen Hrange].
    intros Hrun [->|Hin]%elem_of_cons; [done|].
    rewrite <-Hlen. by apply (IH a1).
Qed.

(** X19. Negative indices are not rejected as such, they count from the
    end of the array; [_load_map] raises [IndexError] when one reaches
    before its start. When all rows start with an integer literal and some
    index [i < 0] has [j + 1 < -i] for every index [j] of the file, the
    call raises [IndexError]; in particular a file whose indices are all
    negative cannot be loaded. *)
Theorem load_map_negative_index_out_of_range
    (w : World) (filename : string) (rows : list (list string))
    (entries : list (Z * list string)) (e : Z * list string) :
  read_rows w filename = Some rows →
  Forall2 (map_row w) rows entries →
  e ∈ entries → e.1 < 0 → (∀ e', e' ∈ entries → e'.1 + 1 < - e.1) →
  Dataset._load_map w filename = inl (Raised IndexError).
Proof.
  intros Hread Hrows Hin Hneg Hsmall. unfold Dataset._load_map.
  rewrite Hread. cbn [outside lbind].
  rewrite (load_map_rows_spec _ _ _ _ _ Hrows). cbn [rbind].
  pose proof (map_size_le 0 entries) as Hn0.
  assert (Hn : map_size 0 entries < - e.1).
  { destruct (map_size_reached 0 entries) as [->|(e' & Hin' & ->)]; [lia|].
    by apply Hsmall. }
  destruct (Dataset.fill_array _ _) as [err|array] eqn:Hfill.
  - by rewrite (fill_array_inl _ _ _ Hfill).
  - exfalso.
    assert (Hkey : e.1 ∈ (map_dictionary [] entries).*1).
    { apply dec_stable. intros Hnot%odict_get_None.
      rewrite map_dictionary_get in Hnot. unfold last_meta in Hnot.
      apply fmap_None, last_None in Hnot.
      assert (e ∈ filter (λ e', e'.1 = e.1) entries) as Hf
        by by apply list_elem_of_filter.
      rewrite Hnot in Hf. by apply elem_of_nil in Hf. }
    pose proof (fill_array_inr_keys _ _ _ _ Hfill Hkey) as Hrange.
    rewrite length_replicate in Hrange. lia.
Qed.

Lemma load_map_negative_index_out_of_range_witness :
  (read_rows toy_world "kge/data/toy/negative.del" = Some [["-1"; "a"]] ∧
   Forall2 (map_row toy_world) [["-1"; "a"]] [(-1, ["a"])] ∧
   (-1, ["a"]) ∈ [(-1, ["a"])] ∧ (-1, ["a"]).1 < 0 ∧
   (∀ e', e' ∈ [(-1, ["a"])] → e'.1 + 1 < - (-1, ["a"]).1)) ∧
  Dataset._load_map toy_world "kge/data/toy/negative.del"
  = inl (Raised IndexError).
Proof.
  assert (H1 : read_rows toy_world "kge/data/toy/negative.del"
               = Some [["-1"; "a"]]) by reflexivity.
  assert (H2 : Forall2 (map_row toy_world) [["-1"; "a"]] [(-1, ["a"])]).
  { repeat constructor; eexists; split; reflexivity. }
  assert (H3 : (-1, ["a"]) ∈ [(-1, ["a"])]) by apply list_elem_of_here.
  assert (H4 : (-1, ["a"]).1 < 0) by (simpl; lia).
  assert (H5 : ∀ e', e' ∈ [(-1, ["a"])] → e'.1 + 1 < - (-1, ["a"]).1).
  { intros e' ->%list_elem_of_singleton. simpl. lia. }
  split; [by split_and!|].
  exact (load_map_negative_index_out_of_range toy_world _ _ _ _ H1 H2 H3 H4 H5).
Defined.

Lemma load_triples_row_spec w n d row e :
  triple_row w row e →
  Dataset.load_triples_row w (n, d) row
  = inr (n + 1, odict_set n (e.1, e.2) d).
Proof.
  intros (f0 & f1 & f2 & s & p & o & -> & H0 & H1 & H2 & Ht).
  unfold Dataset.load_triples_row, row_at, int_of.
  cbn [lookup list_lookup rbind]. rewrite H0. cbn [rbind].
  rewrite H1. cbn [rbind]. rewrite H2. cbn [rbind]. rewrite Ht. done.
Qed.

(** The reading loop of [_load_triples] numbers the rows: row [i] of the
    file goes under key [i], after the rows before it. *)
Lemma load_triples_rows_spec w rows entries (a : nat) d :
  Forall2 (triple_row w) rows entries →
  (∀ k, k ∈ d.*1 → k < Z.of_nat a) →
  for_each (Dataset.load_triples_row w) (Z.of_nat a, d) rows
  = inr (Z.of_nat (a + length entries),
         d ++ zip (Z.of_nat <$> seq a (length entries)) entries).
Proof.
  intros Hrows. revert a d.
  induction Hrows as [|row [t meta] rows entries Hrow _ IH]; intros a d Hd.
  - cbn. by rewrite Nat.add_0_r, app_nil_r.
  - cbn [for_each]. rewrite (load_triples_row_spec _ _ _ _ _ Hrow).
    cbn [rbind fst snd]. rewrite odict_set_fresh.
    + replace (Z.of_nat a + 1) with (Z.of_nat (S a)) by lia.
      rewrite IH.
      * cbn [length seq fmap list_fmap zip zip_with].
        rewrite <-(assoc_L (++)). cbn [app]. do 2 f_equal. lia.
      * intros k. rewrite fmap_app, elem_of_app. cbn.
        intros [Hk|Hk%list_elem_of_singleton]; [apply Hd in Hk|]; lia.
    + intros Hin%Hd. lia.
Qed.

Lemma load_triples_rows_from_0 w rows entries :
  Forall2 (triple_row w) rows entries →
  for_each (Dataset.load_triples_row w) (0, []) rows
  = inr (Z.of_nat (length entries),
         zip (Z.of_nat <$> seq 0 (length entries)) entries).
Proof.
  intros Hrows.
  apply (load_triples_rows_spec w rows entries 0 [] Hrows).
  by intros k ?%elem_of_nil.
Qed.

(** Filling the two arrays from rows numbered [a], [a + 1], ...: their
    slots from [a] on take the rows, in order. *)
Lemma fill_triples_spec (entries : list (triple * list string)) (a : nat)
    (triples : list triple) (meta : list (list string)) :
  (a + length entries ≤ length triples)%nat → length meta = length triples →
  Dataset.fill_triples triples meta
    (zip (Z.of_nat <$> seq a (length entries)) entries)
  = inr (take a triples ++ entries.*1 ++ drop (a + length entries) triples,
         take a meta ++ entries.*2 ++ drop (a + length entries) meta).
Proof.
  unfold Dataset.fill_triples. revert a triples meta.
  induction entries as [|[t m] entries IH]; intros a triples meta Hlen Hmeta.
  - cbn [length seq fmap list_fmap zip zip_with for_each app].
    by rewrite Nat.add_0_r, !take_drop.
  - cbn [length] in Hlen.
    cbn [length seq fmap list_fmap zip zip_with for_each fst snd].
    rewrite !list_set_spec by lia. cbn [rbind].
    change (zip_with pair (list_fmap _ _ Z.of_nat (seq (S a) (length entries))) entries)
      with (zip (Z.of_nat <$> seq (S a) (length entries)) entries).
    rewrite IH; [|rewrite length_insert; lia|by rewrite !length_insert].
    assert (Htake : ∀ {A} (l : list A) (x : A), (a < length l)%nat →
              take (S a) (<[a := x]> l) = take a l ++ [x]).
    { intros A l x Hl.
      rewrite (take_S_r _ _ x) by (by apply list_lookup_insert_eq).
      by rewrite take_insert_ge by lia. }
    rewrite !Htake by lia. rewrite !drop_insert_lt by lia.
    rewrite <-!(assoc_L (++)). cbn [app fmap list_fmap fst snd].
    by replace (a + S (length entries))%nat with (S a + length entries)%nat by lia.
Qed.

(** [_load_triples] on a file that reads as entries. *)
Lemma load_triples_well_formed w filename entries :
  triple_file w filename entries →
  Dataset._load_triples w filename = inr (entries.*1, entries.*2).
Proof.
  intros (rows & Hread & Hrows).
  unfold Dataset._load_triples. rewrite Hread. cbn [outside lbind].
  rewrite (load_triples_rows_from_0 _ _ _ Hrows).
  cbn [rbind]. rewrite Nat2Z.id.
  rewrite fill_triples_spec.
  - cbn [take app Nat.add]. rewrite !drop_ge, !app_nil_r; [done|..].
    + by rewrite length_replicate.
    + unfold torch_empty. by rewrite length_fmap, length_seq.
  - unfold torch_empty. by rewrite length_fmap, length_seq.
  - unfold torch_empty. by rewrite length_replicate, length_fmap, length_seq.
Qed.

(** X20. [_load_triples] keeps the rows of the file in their order: when
    every row has three integer literals in front, the call returns the
    triple array whose row [i] is made of the three integers of row [i] of
    the file, and the metadata array whose entry [i] holds the remaining
    fields of that row; the two arrays are parallel, and nothing of the
    uninitialised tensor is left. *)
Theorem load_triples_rows_in_order
    (w : World) (filename : string) (rows : list (list string))
    (entries : list (triple * list string)) :
  read_rows w filename = Some rows →
  Forall2 (triple_row w) rows entries →
  Dataset._load_triples w filename = inr (entries.*1, entries.*2) ∧
  length entries.*1 = length rows ∧ length entries.*2 = length rows ∧
  ∀ i row, rows !! i = Some row →
    ∃ e, triple_row w row e ∧
         entries.*1 !! i = Some e.1 ∧ entries.*2 !! i = Some e.2.
Proof.
  intros Hread Hrows. split_and!.
  - apply load_triples_well_formed. by exists rows.
  - apply Forall2_length in Hrows. by rewrite length_fmap.
  - apply Forall2_length in Hrows. by rewrite length_fmap.
  - intros i row Hrow.
    destruct (Forall2_lookup_l _ _ _ _ _ Hrows Hrow) as (e & He & Hparsed).
    exists e. by rewrite !list_lookup_fmap, He.
Qed.

Lemma load_triples_rows_in_order_witness :
  (read_rows toy_world "kge/data/toy/train.del"
   = Some [["0"; "0"; "2"; "m"]; ["2"; "0"; "0"]] ∧
   Forall2 (triple_row toy_world)
     [["0"; "0"; "2"; "m"]; ["2"; "0"; "0"]]
     [((0, 0, 2), ["m"]); ((2, 0, 0), [])]) ∧
  Dataset._load_triples toy_world "kge/data/toy/train.del"
  = inr ([(0, 0, 2); (2, 0, 0)], [["m"]; []]).
Proof.
  assert (H1 : read_rows toy_world "kge/data/toy/train.del"
               = Some [["0"; "0"; "2"; "m"]; ["2"; "0"; "0"]]) by reflexivity.
  assert (H2 : Forall2 (triple_row toy_world)
                 [["0"; "0"; "2"; "m"]; ["2"; "0"; "0"]]
                 [((0, 0, 2), ["m"]); ((2, 0, 0), [])]).
  { repeat constructor; do 6 eexists; split_and!; reflexivity. }
  split; [by split|].
  exact (proj1 (load_triples_rows_in_order toy_world _ _ _ H1 H2)).
Defined.

(** X21. The first row of a triple file that does not read as a triple
    decides the outcome of [_load_triples]: when the rows before it are
    well formed, a row with fewer than three fields, all of them integer
    literals, raises [IndexError], and a row whose first non-literal field
    is among the first three raises [ValueError]. *)
Theorem load_triples_bad_row
    (w : World) (filename : string) (good : list (list string))
    (bad : list string) (rest : list (list string))
    (entries : list (triple * list string)) :
  read_rows w filename = Some (good ++ bad :: rest) →
  Forall2 (triple_row w) good entries →
  ((length bad < 3)%nat → Forall (λ f, is_Some (py_int w f)) bad →
   Dataset._load_triples w filename = inl (Raised IndexError)) ∧
  (∀ i f, (i < 3)%nat → bad !! i = Some f → py_int w f = None →
          Forall (λ f', is_Some (py_int w f')) (take i bad) →
   Dataset._load_triples w filename = inl (Raised ValueError)).
Proof.
  intros Hread Hgood. unfold Dataset._load_triples. rewrite Hread.
  cbn [outside lbind]. rewrite for_each_app.
  rewrite (load_triples_rows_from_0 _ _ _ Hgood).
  cbn [rbind for_each]. unfold Dataset.load_triples_row, row_at, int_of.
  split.
  - intros Hlen Hbad.
    destruct bad as [|f0 [|f1 [|f2 bad]]]; cbn in Hlen; try lia;
      repeat match goal with
             | H : Forall _ (_ :: _) |- _ =>
                 apply Forall_cons in H as [[? ?] H]
             end;
      cbn [lookup list_lookup rbind];
      repeat match goal with
             | H : py_int w _ = Some _ |- _ => rewrite H; clear H
             end; done.
  - intros i f Hi Hf Hint Hbefore.
    destruct bad as [|f0 [|f1 [|f2 bad]]];
      destruct i as [|[|[|i]]]; try lia; cbn in Hf; try done;
      injection Hf as ->; cbn [take] in Hbefore;
      repeat match goal with
             | H : Forall _ (_ :: _) |- _ =>
                 apply Forall_cons in H as [[? ?] H]
             end;
      cbn [lookup list_lookup rbind];
      repeat match goal with
             | H : py_int w _ = Some _ |- _ => rewrite H; clear H; cbn [rbind]
             end; by rewrite ?Hint.
Qed.

Lemma load_triples_bad_row_witness :
  (read_rows toy_world "kge/data/toy/short_row.del"
   = Some ([["0"; "0"; "2"]] ++ ["1"; "0"] :: []) ∧
   Forall2 (triple_row toy_world) [["0"; "0"; "2"]] [((0, 0, 2), [])] ∧
   (length ["1"; "0"] < 3)%nat ∧
   Forall (λ f, is_Some (py_int toy_world f)) ["1"; "0"]) ∧
  Dataset._load_triples toy_world "kge/data/toy/short_row.del"
  = inl (Raised IndexError).
Proof.
  assert (H1 : read_rows toy_world "kge/data/toy/short_row.del"
               = Some ([["0"; "0"; "2"]] ++ ["1"; "0"] :: [])) by reflexivity.
  assert (H2 : Forall2 (triple_row toy_world) [["0"; "0"; "2"]] [((0, 0, 2), [])]).
  { repeat constructor; do 6 eexists; split_and!; reflexivity. }
  assert (H3 : (length ["1"; "0"] < 3)%nat) by (simpl; lia).
  assert (H4 : Forall (λ f, is_Some (py_int toy_world f)) ["1"; "0"]).
  { repeat constructor; by eexists. }
  split; [by split_and!|].
  exact (proj1 (load_triples_bad_row toy_world _ _ _ _ _ H1 H2) H3 H4).
Defined.

(** * Properties of [load] *)

Lemma load_map_inr_length w filename n array :
  Dataset._load_map w filename = inr (n, array) → length array = Z.to_nat n.
Proof.
  unfold Dataset._load_map.
  destruct (read_rows w filename) as [rows|]; [|done]. cbn [outside lbind].
  destruct (for_each _ _ rows) as [e|[n' d]]; [done|]. cbn [rbind].
  destruct (Dataset.fill_array _ d) as [e|array'] eqn:Hfill; [done|].
  cbn [rbind raised]. intros [= <- <-].
  apply fill_array_length in Hfill. by rewrite length_replicate in Hfill.
Qed.

Lemma fill_triples_length dictionary triples meta triples' meta' :
  Dataset.fill_triples triples meta dictionary = inr (triples', meta') →
  length triples' = length triples ∧ length meta' = length meta.
Proof.
  unfold Dataset.fill_triples. revert triples meta.
  induction dictionary as [|[k [t m]] dictionary IH]; intros triples meta.
  - by intros [= <- <-].
  - cbn [for_each fst snd].
    destruct (list_set triples k t) as [e|t1] eqn:Ht; [done|]. cbn [rbind].
    destruct (list_set meta k m) as [e|m1] eqn:Hm; [done|]. cbn [rbind].
    intros [-> ->]%IH.
    apply list_set_inr in Ht as [-> _]. by apply list_set_inr in Hm as [-> _].
Qed.

Lemma load_triples_inr_parallel w filename triples meta :
  Dataset._load_triples w filename = inr (triples, meta) →
  length meta = length triples.
Proof.
  unfold Dataset._load_triples.
  destruct (read_rows w filename) as [rows|]; [|done]. cbn [outside lbind].
  destruct (for_each _ _ rows) as [e|[n d]]; [done|]. cbn [rbind].
  destruct (Dataset.fill_triples _ _ d) as [e|[t m]] eqn:Hfill; [done|].
  cbn [raised]. intros [= <- <-].
  apply fill_triples_length in Hfill as [-> ->].
  unfold torch_empty. by rewrite length_replicate, length_fmap, length_seq.
Qed.

Lemma log_with_log msg d :
  Dataset.log msg d = with_log (Dataset.config_log d ++ [msg]) d.
Proof. done. Qed.

Lemma with_log_with_log lines lines' d :
  with_log lines (with_log lines' d) = with_log lines d.
Proof. done. Qed.

(** The loop over the relation types only logs. *)
Lemma log_types_with_log d :
  ∃ lines, Dataset.log_types d = with_log (Dataset.config_log d ++ lines) d.
Proof.
  unfold Dataset.log_types. generalize (Dataset.type_order d).
  intros l. revert d. induction l as [|k l IH]; intros d.
  - exists []. rewrite app_nil_r. by destruct d.
  - cbn [foldl]. destruct (IH (Dataset.log
      (pretty (size (default ∅ (Dataset.relations_per_type d !! k)))
         +:+ " relations of type " +:+ k) d)) as [lines ->].
    eexists. rewrite log_with_log, with_log_with_log.
    cbn [with_log Dataset.config_log]. by rewrite <-(assoc_L (++)).
Qed.

(** The relation types of a constructed dataset: one label for each
    position of [relations], none elsewhere. *)
Lemma classify_domain num_relations relations train types i :
  classify num_relations relations train = inr types →
  is_Some (types !! i) ↔ (i < length relations)%nat.
Proof.
  unfold classify.
  destruct (filled_stats num_relations train) as [e|t]; [done|]. cbn [rbind].
  rewrite label_relations_unfold. intros Hl.
  destruct (label_loop_inr _ _ _ _ _ Hl) as [_ Hm]. rewrite Hm.
  case_decide.
  - split; [lia | by eexists].
  - rewrite lookup_empty. split; [by intros [? [=]] | lia].
Qed.

(** One step of [load]: the outcome of the next call it makes. *)
Tactic Notation "load_step" hyp(H) "as" simple_intropattern(pat) "eqn" ident(E) :=
  match type of H with
  | lbind ?m _ = _ => destruct m as [?|pat] eqn:E; cbn [lbind] in H; [done|]
  end.

(** X22. What [load] guarantees about the dataset it returns: the entity
    and relation counts are the lengths of the entity and relation
    arrays; each split has one metadata entry per triple; every relation
    identifier below [num_relations], and no other, has a label in
    [relation_types]; and the lines logged before the call are still the
    beginning of the log. *)
Theorem load_invariants (w : World) (config : list string) (d : Dataset.t) :
  Dataset.load w config = inr d →
  Dataset.num_entities d = length (Dataset.entities d) ∧
  Dataset.num_relations d = length (Dataset.relations d) ∧
  length (Dataset.train_meta d) = length (Dataset.train d) ∧
  length (Dataset.valid_meta d) = length (Dataset.valid d) ∧
  length (Dataset.test_meta d) = length (Dataset.test d) ∧
  (∀ i, is_Some (Dataset.relation_types d !! i) ↔
        (i < Dataset.num_relations d)%nat) ∧
  config `prefix_of` Dataset.config_log d.
Proof.
  unfold Dataset.load. intros Hload.
  load_step Hload as name eqn Hname.
  load_step Hload as entity_map eqn Hentity_map.
  load_step Hload as [ne entities] eqn Hentities.
  load_step Hload as relation_map eqn Hrelation_map.
  load_step Hload as [nr relations] eqn Hrelations.
  load_step Hload as train_file eqn Htrain_file.
  load_step Hload as [train train_meta] eqn Htrain.
  load_step Hload as valid_file eqn Hvalid_file.
  load_step Hload as [valid valid_meta] eqn Hvalid.
  load_step Hload as test_file eqn Htest_file.
  load_step Hload as [test test_meta] eqn Htest.
  load_step Hload as result eqn Hinit.
  cbn [fst snd] in *. injection Hload as <-.
  apply load_map_inr_length in Hentities, Hrelations.
  apply load_triples_inr_parallel in Htrain, Hvalid, Htest.
  rewrite init_classify in Hinit.
  destruct (classify (Z.to_nat nr) relations train) as [e|types] eqn:Hclassify;
    [done|].
  cbn [raised] in Hinit. injection Hinit as <-.
  cbv zeta.
  match goal with
  | |- context [Dataset.log_types ?r] =>
      destruct (log_types_with_log r) as [lines ->]
  end.
  rewrite !log_with_log, !with_log_with_log.
  cbn [with_log Dataset.num_entities Dataset.entities Dataset.num_relations
       Dataset.relations Dataset.train Dataset.train_meta Dataset.valid
       Dataset.valid_meta Dataset.test Dataset.test_meta Dataset.relation_types
       Dataset.config_log].
  split_and!; try done.
  - intros i. rewrite (classify_domain _ _ _ _ i Hclassify). by rewrite Hrelations.
  - unfold after_train_indexes, after_build, Dataset.log, Dataset.set_indexes,
      fresh. cbn [Dataset.config_log].
    rewrite <-!(assoc_L (++)). by apply prefix_app_r.
Qed.

Lemma load_invariants_witness :
  ∃ d,
    Dataset.load toy_world [] = inr d ∧
    Dataset.num_entities d = length (Dataset.entities d) ∧
    Dataset.num_relations d = length (Dataset.relations d).
Proof.
  assert (H : ∃ d, Dataset.load toy_world [] = inr d)
    by (vm_compute; eexists; reflexivity).
  destruct H as [d H]. exists d. split; [exact H|].
  destruct (load_invariants toy_world [] d H) as (H1 & H2 & _).
  by split.
Defined.

Lemma dataset_file_Some w name key filename :
  dataset_file w name key = Some filename →
  ∃ file, config_get w key = Some file ∧
          filename
          = path_join w (path_join w (kge_base_dir w) ("data/" +:+ name)) file.
Proof.
  unfold dataset_file. destruct (config_get w key) as [file|]; [|done].
  intros [= <-]. by exists file.
Qed.

(** X23. [load] on well-formed files. When the configuration names the
    dataset and its five files, the two map files read as entries with
    indices [>= 0] and the three triple files read as triples, [load]
    returns a dataset exactly when every training predicate is an index of
    the relation array ([-n <= p < n] for [n] one more than the largest
    relation index); the dataset then holds the triples and metadata of
    the three files in file order and the two counts; and when some
    training predicate is not such an index, [load] raises [IndexError]. *)
Theorem load_well_formed_files
    (w : World) (config : list string) (name : string)
    (entity_file relation_file train_file valid_file test_file : string)
    (entities relations : list (Z * list string))
    (train valid test : list (triple * list string)) :
  config_get w "dataset.name" = Some name →
  dataset_file w name "dataset.entity_map" = Some entity_file →
  dataset_file w name "dataset.relation_map" = Some relation_file →
  dataset_file w name "dataset.train" = Some train_file →
  dataset_file w name "dataset.valid" = Some valid_file →
  dataset_file w name "dataset.test" = Some test_file →
  map_file w entity_file entities →
  map_file w relation_file relations →
  triple_file w train_file train →
  triple_file w valid_file valid →
  triple_file w test_file test →
  ((∀ s p o, (s, p, o) ∈ train.*1 →
             - map_size 0 relations ≤ p < map_size 0 relations) →
   ∃ d, Dataset.load w config = inr d ∧
        (Dataset.train d, Dataset.train_meta d) = (train.*1, train.*2) ∧
        (Dataset.valid d, Dataset.valid_meta d) = (valid.*1, valid.*2) ∧
        (Dataset.test d, Dataset.test_meta d) = (test.*1, test.*2) ∧
        Z.of_nat (Dataset.num_entities d) = map_size 0 entities ∧
        Z.of_nat (Dataset.num_relations d) = map_size 0 relations) ∧
  ((∃ s p o, (s, p, o) ∈ train.*1 ∧
             ¬ (- map_size 0 relations ≤ p < map_size 0 relations)) →
   Dataset.load w config = inl (Raised IndexError)).
Proof.
  intros Hname (fe & Hfe & ->)%dataset_file_Some (fr & Hfr & ->)%dataset_file_Some
    (ft & Hft & ->)%dataset_file_Some (fv & Hfv & ->)%dataset_file_Some
    (fs & Hfs & ->)%dataset_file_Some
    (earray & Hentities & Helen & _)%load_map_well_formed
    (rarray & Hrelations & Hrlen & _)%load_map_well_formed
    Htrain%load_triples_well_formed Hvalid%load_triples_well_formed
    Htest%load_triples_well_formed.
  pose proof (map_size_le 0 entities) as Hne.
  pose proof (map_size_le 0 relations) as Hnr.
  unfold Dataset.load.
  rewrite Hname, Hfe, Hfr, Hft, Hfv, Hfs. cbn [outside lbind].
  rewrite Hentities. cbn [lbind]. rewrite Hrelations. cbn [lbind].
  rewrite Htrain. cbn [lbind]. rewrite Hvalid. cbn [lbind].
  rewrite Htest. cbn [lbind fst snd].
  rewrite init_classify. unfold classify.
  pose proof (filled_stats_is_inr (Z.to_nat (map_size 0 relations)) train.*1)
    as Hiff.
  rewrite Z2Nat.id in Hiff by done.
  destruct (filled_stats _ _) as [e|t] eqn:Ht; cbn [rbind].
  - destruct (filled_stats_inl _ _ _ Ht) as [-> _]. cbn [raised lbind]. split.
    + intros Hrange. apply Hiff in Hrange as [t' [=]].
    + done.
  - destruct (filled_stats_inr _ _ _ Ht) as (Htlen & _).
    destruct (label_loop_total (Dataset.threshold_stats t) rarray 0 ∅)
      as [types Htypes]; [rewrite length_threshold_stats; lia|].
    rewrite label_relations_unfold, Htypes. cbn [raised lbind]. split.
    + intros _. eexists. split; [done|]. cbv zeta.
      match goal with
      | |- context [Dataset.log_types ?r] =>
          destruct (log_types_with_log r) as [lines ->]
      end.
      rewrite !log_with_log, !with_log_with_log.
      cbn [with_log Dataset.num_entities Dataset.num_relations Dataset.train
           Dataset.train_meta Dataset.valid Dataset.valid_meta Dataset.test
           Dataset.test_meta].
      split_and!; try done; lia.
    + intros (s & p & o & Hin & Hbad). exfalso. apply Hbad.
      destruct Hiff as [Hiff _]. apply (Hiff ltac:(by eexists) s p o Hin).
Qed.

Lemma load_well_formed_files_witness :
  (config_get toy_world "dataset.name" = Some "toy" ∧
   dataset_file toy_world "toy" "dataset.entity_map"
   = Some "kge/data/toy/entity_map.del" ∧
   dataset_file toy_world "toy" "dataset.relation_map"
   = Some "kge/data/toy/relation_map.del" ∧
   dataset_file toy_world "toy" "dataset.train" = Some "kge/data/toy/train.del" ∧
   dataset_file toy_world "toy" "dataset.valid" = Some "kge/data/toy/valid.del" ∧
   dataset_file toy_world "toy" "dataset.test" = Some "kge/data/toy/test.del" ∧
   map_file toy_world "kge/data/toy/entity_map.del"
     [(0, ["a"]); (2, ["c"; "x"]); (0, ["b"])] ∧
   map_file toy_world "kge/data/toy/relation_map.del" [(0, ["r"])] ∧
   triple_file toy_world "kge/data/toy/train.del"
     [((0, 0, 2), ["m"]); ((2, 0, 0), [])] ∧
   triple_file toy_world "kge/data/toy/valid.del" [] ∧
   triple_file toy_world "kge/data/toy/test.del" [((0, 0, 0), [])] ∧
   (∀ s p o, (s, p, o) ∈ [((0, 0, 2), ["m"]); ((2, 0, 0), [])].*1 →
             - map_size 0 [(0, ["r"])] ≤ p < map_size 0 [(0, ["r"])])) ∧
  ∃ d, Dataset.load toy_world [] = inr d ∧
       Dataset.train d = [(0, 0, 2); (2, 0, 0)] ∧
       Dataset.num_relations d = 1%nat.
Proof.
  assert (Hmap : ∀ rows entries,
            Forall2 (map_row toy_world) rows entries →
            (∀ e, e ∈ entries → 0 ≤ e.1) →
            ∀ f, read_rows toy_world f = Some rows → map_file toy_world f entries)
    by (intros rows entries ?? f ?; by exists rows).
  assert (Htriple : ∀ rows entries,
            Forall2 (triple_row toy_world) rows entries →
            ∀ f, read_rows toy_world f = Some rows →
                 triple_file toy_world f entries)
    by (intros rows entries ? f ?; by exists rows).
  assert (H1 : map_file toy_world "kge/data/toy/entity_map.del"
                 [(0, ["a"]); (2, ["c"; "x"]); (0, ["b"])]).
  { apply (Hmap [["0"; "a"]; ["2"; "c"; "x"]; ["0"; "b"]]); [| |reflexivity].
    - repeat constructor; eexists; split; reflexivity.
    - intros e He. repeat (apply elem_of_cons in He as [->|He]; [simpl; lia|]).
      by apply elem_of_nil in He. }
  assert (H2 : map_file toy_world "kge/data/toy/relation_map.del" [(0, ["r"])]).
  { apply (Hmap [["0"; "r"]]); [| |reflexivity].
    - repeat constructor; eexists; split; reflexivity.
    - intros e ->%list_elem_of_singleton. simpl. lia. }
  assert (H3 : triple_file toy_world "kge/data/toy/train.del"
                 [((0, 0, 2), ["m"]); ((2, 0, 0), [])]).
  { apply (Htriple [["0"; "0"; "2"; "m"]; ["2"; "0"; "0"]]); [|reflexivity].
    repeat constructor; do 6 eexists; split_and!; reflexivity. }
  assert (H4 : triple_file toy_world "kge/data/toy/valid.del" []).
  { apply (Htriple []); [constructor | reflexivity]. }
  assert (H5 : triple_file toy_world "kge/data/toy/test.del" [((0, 0, 0), [])]).
  { apply (Htriple [["0"; "0"; "0"]]); [|reflexivity].
    repeat constructor; do 6 eexists; split_and!; reflexivity. }
  assert (H6 : ∀ s p o, (s, p, o) ∈ [((0, 0, 2), ["m"]); ((2, 0, 0), [])].*1 →
                 - map_size 0 [(0, ["r"])] ≤ p < map_size 0 [(0, ["r"])]).
  { intros s p o Hin. cbn in Hin.
    repeat (apply elem_of_cons in Hin as [[= -> -> ->]|Hin]; [cbn; lia|]).
    by apply elem_of_nil in Hin. }
  split; [by split_and!|].
  destruct (proj1 (load_well_formed_files toy_world [] "toy" _ _ _ _ _ _ _ _ _ _
                     eq_refl eq_refl eq_refl eq_refl eq_refl eq_refl
                     H1 H2 H3 H4 H5) H6)
    as (d & Hload & Htrain & _ & _ & _ & Hnr).
  exists d. split; [exact Hload|]. split.
  - by injection Htrain as -> _.
  - cbn in Hnr. lia.
Defined.
